(** * Vimium help dialog page: a shallow embedding of
    [pages/help_dialog_page.js] and the properties of its helpers.

    JavaScript strings are sequences of UTF-16 code units; they are
    modelled as lists of code units ([N]), so that [length], the
    relational operators and [String.prototype.replace / includes /
    substring] act on exactly the data the engine sees.  Numbers that
    the page handles are lengths and small integer budgets: they are
    modelled in [Z]. *)

From Stdlib Require Import ZArith NArith List Ascii String Sorted Permutation.
From stdpp Require Import base option list gmap strings.

Local Open Scope Z_scope.

(** ** JavaScript strings *)

Module JsString.

Abbreviation jsstring := (list N) (only parsing).

(** A string literal of the source, as its code units (the literals of
    this page are all ASCII). *)
Definition str (s : string) : jsstring :=
  List.map N_of_ascii (list_ascii_of_string s).

(** [pat] occurs at position 0 of [s]. *)
Fixpoint starts_with (pat s : jsstring) : bool :=
  match pat, s with
  | [], _ => true
  | _ :: _, [] => false
  | p :: pat', c :: s' => if (p =? c)%N then starts_with pat' s' else false
  end.

(** [s.includes(pat)]: [pat] occurs somewhere in [s]. *)
Fixpoint includes (s pat : jsstring) : bool :=
  starts_with pat s
  || match s with
     | [] => false
     | _ :: s' => includes s' pat
     end.

(** [s.replace(pat, rep)] with a string pattern: only the first
    occurrence of [pat] is replaced.  ([rep] is taken literally: the
    replacement strings of this page contain no [$].) *)
Fixpoint replace (s pat rep : jsstring) : jsstring :=
  if starts_with pat s then rep ++ drop (length pat) s
  else match s with
       | [] => []
       | c :: s' => c :: replace s' pat rep
       end.

(** [a < b] on two strings: lexicographic order on code units, a
    proper prefix being smaller. *)
Fixpoint str_lt (a b : jsstring) : bool :=
  match a, b with
  | _, [] => false
  | [], _ :: _ => true
  | x :: a', y :: b' =>
      if (x <? y)%N then true
      else if (y <? x)%N then false
      else str_lt a' b'
  end.

(** [s.substring(start, end)]: both indices are clamped to
    [0, s.length] and swapped when [start > end]. *)
Definition clamp (len i : Z) : Z := Z.min (Z.max i 0) len.

Definition substring (s : jsstring) (start stop : Z) : jsstring :=
  let len := Z.of_nat (length s) in
  let a := clamp len start in
  let b := clamp len stop in
  let lo := Z.min a b in
  let hi := Z.max a b in
  take (Z.to_nat (hi - lo)) (drop (Z.to_nat lo) s).

(** [s] ends with [suf]. *)
Definition ends_with (s suf : jsstring) : Prop :=
  exists pre, s = pre ++ suf.

End JsString.

Import JsString.

(** ** The helpers at the top of the page *)

Definition LT : N := 60.     (* "<" *)
Definition TILDE : N := 126. (* "~" *)

(** The ordering we show key bindings is alphanumerical, except that
    special keys sort to the end. *)
Definition compareKeys (a b : jsstring) : Z :=
  let a := replace a (str "<") (str "~") in
  let b := replace b (str "<") (str "~") in
  if str_lt a b then -1
  else if str_lt b a then 1
  else 0.

(** The order the comparator induces: [a] may stand before [b]. *)
Definition key_le (a b : jsstring) : Prop := compareKeys a b <= 0.

(** [a'] is the label [a] with its first "<", if it has one, turned
    into "~", and every later "<" left as it is. *)
Definition first_marker_rewritten (a a' : jsstring) : Prop :=
  ((LT ∉ a) /\ a' = a)
  \/ (exists p r, (LT ∉ p) /\ a = p ++ LT :: r /\ a' = p ++ TILDE :: r).

Definition ellipsis : jsstring := str "...".

(** Truncates [s] and appends an ellipsis if [s] is longer than
    [maxLength]. *)
Definition ellipsize (s : jsstring) (maxLength : Z) : jsstring :=
  if Z.of_nat (length s) <=? maxLength then s
  else substring s 0 (Z.max 0 (maxLength - Z.of_nat (length ellipsis)))
       ++ ellipsis.

(** A command definition of [all_commands.js], with the fields this
    page reads.  [group] and [advanced] may be missing on an entry
    ([None] is JavaScript's [undefined]). *)
Record command := Command {
  name : jsstring;
  desc : jsstring;
  group : option jsstring;
  advanced : option bool
}.

(** Truthiness of an optional boolean field. *)
Definition truthy (b : option bool) : bool :=
  match b with
  | Some true => true
  | _ => false
  end.

(** Returns true if the command should be labeled as "advanced" for UI
    purposes.  ([x || y] yields [x] when [x] is truthy, i.e. [true]
    here, and the boolean [y] otherwise.) *)
Definition isAdvancedCommand (c : command) (options : jsstring) : bool :=
  if truthy (advanced c) then true
  else bool_decide (name c = str "reload")
       && includes options (str "hard").

(** ** Objects used as maps *)

Module JsObject.

(** An object is represented by its own enumerable string-keyed
    properties in the order [Object.entries] lists them: array-index
    keys first, in ascending numeric order, then the other keys in the
    order they were created.  Keys are unique. *)
Abbreviation obj V := (list (jsstring * V)) (only parsing).

Definition is_digit (c : N) : bool := ((48 <=? c) && (c <=? 57))%N.

Fixpoint digits_value (acc : N) (s : jsstring) : option N :=
  match s with
  | [] => Some acc
  | c :: s' =>
      if is_digit c then digits_value (acc * 10 + (c - 48))%N s' else None
  end.

(** A property key is an array index when it is the canonical decimal
    form of an integer in [0, 2^32 - 2]. *)
Definition array_index (k : jsstring) : option N :=
  match k with
  | [] => None
  | c :: rest =>
      if (c =? 48)%N && negb (bool_decide (rest = [])) then None
      else match digits_value 0 k with
           | Some n => if (n <? 2 ^ 32 - 1)%N then Some n else None
           | None => None
           end
  end.

(** [o[k]] on own properties. *)
Fixpoint obj_get {V} (k : jsstring) (o : obj V) : option V :=
  match o with
  | [] => None
  | (k', v) :: o' => if bool_decide (k' = k) then Some v else obj_get k o'
  end.

Definition keys {V} (o : obj V) : list jsstring := o.*1.

(** Where a new property lands in the enumeration order. *)
Fixpoint place_index {V} (n : N) (k : jsstring) (v : V) (o : obj V) : obj V :=
  match o with
  | [] => [(k, v)]
  | (k', v') :: o' =>
      match array_index k' with
      | Some n' =>
          if (n' <? n)%N then (k', v') :: place_index n k v o'
          else (k, v) :: o
      | None => (k, v) :: o
      end
  end.

Definition place_new {V} (k : jsstring) (v : V) (o : obj V) : obj V :=
  match array_index k with
  | Some n => place_index n k v o
  | None => o ++ [(k, v)]
  end.

Fixpoint overwrite {V} (k : jsstring) (v : V) (o : obj V) : obj V :=
  match o with
  | [] => []
  | (k', v') :: o' =>
      if bool_decide (k' = k) then (k', v) :: o'
      else (k', v') :: overwrite k v o'
  end.

(** Defining the data property [k] of [o]: an existing property keeps
    its place, a new one is created. *)
Definition obj_set {V} (k : jsstring) (v : V) (o : obj V) : obj V :=
  match obj_get k o with
  | Some _ => overwrite k v o
  | None => place_new k v o
  end.

(** [o[k] = v] on an object literal.  Such an object inherits from
    [Object.prototype], whose [__proto__] accessor intercepts the
    assignment to that one key: no own property is created. *)
Definition assign {V} (k : jsstring) (v : V) (o : obj V) : obj V :=
  if bool_decide (k = str "__proto__") then o else obj_set k v o.

(** [Object.groupBy(items, f)]: a prototype-less object with one
    property per key, holding the items of that key in their order. *)
Definition push_group {A} (k : jsstring) (x : A) (o : obj (list A))
  : obj (list A) :=
  match obj_get k o with
  | Some l => obj_set k (l ++ [x]) o
  | None => obj_set k [x] o
  end.

Definition groupBy {A} (items : list A) (f : A -> jsstring) : obj (list A) :=
  foldl (fun o x => push_group (f x) x o) [] items.

(** The items of key [g], in their order. *)
Definition members {A} (f : A -> jsstring) (g : jsstring) (items : list A)
  : list A :=
  List.filter (fun x => bool_decide (f x = g)) items.

End JsObject.

Import JsObject.

(** ** The store: objects and arrays are shared by reference *)

Abbreviation loc := nat (only parsing).

Record store := Store {
  objects : gmap nat (list (jsstring * nat));
  arrays : gmap nat (list jsstring)
}.

Definition get_object (σ : store) (l : loc) : obj loc :=
  default [] (objects σ !! l).

Definition get_array (σ : store) (l : loc) : list jsstring :=
  default [] (arrays σ !! l).

(** [Array.prototype.sort(cmp)] is stable, and for a consistent
    comparator its result is the one stable sorted arrangement;
    insertion from the right computes it. *)
Fixpoint insert_sorted {A} (cmp : A -> A -> Z) (x : A) (l : list A) : list A :=
  match l with
  | [] => [x]
  | y :: l' => if cmp x y <=? 0 then x :: l else y :: insert_sorted cmp x l'
  end.

Definition sort {A} (cmp : A -> A -> Z) (l : list A) : list A :=
  foldr (insert_sorted cmp) [] l.

(** [keys.sort(cmp)] sorts the array that [keys] refers to, in place. *)
Definition array_sort (cmp : jsstring -> jsstring -> Z) (keys : loc)
  (σ : store) : store :=
  Store (objects σ) (alter (sort cmp) keys (arrays σ)).

(** ** The page controller *)

(** A row of the dialog: [[command, options, keys]], [keys] being the
    very array of the binding table. *)
Definition row : Type := command * jsstring * loc.

Definition row_command (r : row) : command := r.1.1.
Definition row_options (r : row) : jsstring := r.1.2.
Definition row_keys (r : row) : loc := r.2.

(** What [getRowEl] fills in of the cloned row template. *)
Record rowEl := RowEl {
  help_description : jsstring;      (* textContent of .help-description *)
  help_title : option jsstring;     (* its title, when the page sets it *)
  row_advanced : bool;              (* .row carries the class "advanced" *)
  key_bindings : list jsstring      (* the .key nodes, in order *)
}.

(** The property key of a command's group ([undefined] becomes the
    string "undefined"). *)
Definition group_key (c : command) : jsstring :=
  default (str "undefined") (group c).

Section Dialog.

Variable allCommands : list command.

(** [commandToOptionsToKeys[command.name] || {}].  The table is plain
    data read from session storage; a name it does not hold as an own
    property yields [undefined], or a member of [Object.prototype],
    none of which has an enumerable own property: no entries either
    way. *)
Definition variations (σ : store) (commandToOptionsToKeys : loc)
  (c : command) : obj loc :=
  match obj_get (name c) (get_object σ commandToOptionsToKeys) with
  | Some l => get_object σ l
  | None => []
  end.

(** The rows pushed for the commands of one group. *)
Definition rows_of (σ : store) (commandToOptionsToKeys : loc)
  (commands : list command) : list row :=
  flat_map
    (fun c => List.map (fun '(options, keys) => (c, options, keys))
                (variations σ commandToOptionsToKeys c))
    commands.

(** Returns the rows to show in the help dialog, grouped by command
    group. *)
Definition getRowsForDialog (σ : store) (commandToOptionsToKeys : loc)
  : obj (list row) :=
  let byGroup := groupBy allCommands group_key in
  foldl
    (fun result '(group, commands) =>
       assign group (rows_of σ commandToOptionsToKeys commands) result)
    [] byGroup.

Definition maxLength : Z := 40.

Definition getRowEl (c : command) (options : jsstring) (keys : loc)
  (σ : store) : rowEl * store :=
  let adv := isAdvancedCommand c options in
  let σ' := array_sort compareKeys keys σ in
  let nodes := get_array σ' keys in
  let full := desc c ++ str " (" ++ options ++ str ")" in
  if bool_decide (options = str "") then
    (RowEl (desc c) None adv nodes, σ')
  else
    let optionsString :=
      ellipsize options (maxLength - Z.of_nat (length (desc c))) in
    let label := desc c ++ str " (" ++ optionsString ++ str ")" in
    let isTruncated := negb (bool_decide (optionsString = options)) in
    (RowEl label (if isTruncated then Some full else None) adv nodes, σ').

(** The rendering loops of [show]: every row of every group goes
    through [getRowEl]; the elements are collected per group. *)
Fixpoint renderRows (rows : list row) (σ : store) : list rowEl * store :=
  match rows with
  | [] => ([], σ)
  | (c, options, keys) :: rows' =>
      let '(el, σ1) := getRowEl c options keys σ in
      let '(els, σ2) := renderRows rows' σ1 in
      (el :: els, σ2)
  end.

Fixpoint renderGroups (rowsByGroup : obj (list row)) (σ : store)
  : obj (list rowEl) * store :=
  match rowsByGroup with
  | [] => ([], σ)
  | (g, rows) :: rest =>
      let '(els, σ1) := renderRows rows σ in
      let '(out, σ2) := renderGroups rest σ1 in
      ((g, els) :: out, σ2)
  end.

Definition renderDialog (σ : store) (commandToOptionsToKeys : loc)
  : obj (list rowEl) * store :=
  renderGroups (getRowsForDialog σ commandToOptionsToKeys) σ.

End Dialog.

(** The key lists that rendering [rowsByGroup] hands to [getRowEl]. *)
Definition rendered_keys (rowsByGroup : obj (list row)) : list loc :=
  List.map row_keys (concat (List.map snd rowsByGroup)).


(** ** Advanced commands: the toggle and the persisted setting *)

Module Settings.

Definition key : jsstring := str "helpDialog_showAdvancedCommands".

(** Modelled from the spec: the settings store of [lib/settings.js],
    which this page only calls.  It is a key-value store: [get] returns
    the value last [set] under the key, and the setting's default
    ([false] for [helpDialog_showAdvancedCommands]) when there is none. *)
Definition get (k : jsstring) (s : gmap (list N) bool) : bool :=
  default false (s !! k).

(** Modelled from the spec: [Settings.set] of the same store. *)
Definition set (k : jsstring) (v : bool) (s : gmap (list N) bool)
  : gmap (list N) bool :=
  <[k := v]> s.

End Settings.

(** A [classList]: an ordered set of tokens. *)
Module ClassList.

Definition contains (t : jsstring) (l : list jsstring) : bool :=
  bool_decide (t ∈ l).

Definition add (t : jsstring) (l : list jsstring) : list jsstring :=
  if contains t l then l else l ++ [t].

Definition remove (t : jsstring) (l : list jsstring) : list jsstring :=
  List.filter (fun t' => negb (bool_decide (t' = t))) l.

End ClassList.

(** The part of the page that the toggle reads and writes. *)
Record page := Page {
  settings : gmap (list N) bool;   (* the settings store *)
  caption : jsstring;              (* textContent of "#toggle-advanced a" *)
  dialog_classes : list jsstring;  (* dialogElement.classList *)
  scrollTop : Z                    (* of "#container", as laid out *)
}.

Definition show_advanced : jsstring := str "show-advanced".

Section Toggle.

(** The content height of "#container" is the layout engine's; within
    the toggle it can only depend on what the toggle changes. *)
Variable scrollHeight : list jsstring -> jsstring -> Z.

(** So is the range of its scroll offset: [clampScrollTop classes
    caption top] is the [scrollTop] the browser leaves for that
    content when the offset was, or is set to, [top] (an offset beyond
    the scrollable range is brought back into it). *)
Variable clampScrollTop : list jsstring -> jsstring -> Z -> Z.

(** This setting is pulled out of local storage.  It's false by
    default. *)
Definition getShowAdvancedCommands (p : page) : bool :=
  Settings.get Settings.key (settings p).

Definition showAdvancedCommands (visible : bool) (p : page) : page :=
  let caption :=
    if visible then str "Hide advanced commands"
    else str "Show advanced commands" in
  Page (settings p) caption
       (if visible then ClassList.add show_advanced (dialog_classes p)
        else ClassList.remove show_advanced (dialog_classes p))
       (scrollTop p).

Definition toggleAdvancedCommands (p : page) : page :=
  let scrollHeightBefore := scrollHeight (dialog_classes p) (caption p) in
  let showAdvanced := getShowAdvancedCommands p in
  let p := showAdvancedCommands (negb showAdvanced) p in
  let p := Page (Settings.set Settings.key (negb showAdvanced) (settings p))
                (caption p) (dialog_classes p) (scrollTop p) in
  (* Try to keep the "show advanced commands" button in the same scroll
     position. *)
  let reflow := clampScrollTop (dialog_classes p) (caption p) in
  let scrollHeightDelta :=
    scrollHeight (dialog_classes p) (caption p) - scrollHeightBefore in
  if 0 <? scrollHeightDelta then
    Page (settings p) (caption p) (dialog_classes p)
         (reflow (reflow (scrollTop p) + scrollHeightDelta))
  else
    Page (settings p) (caption p) (dialog_classes p) (reflow (scrollTop p)).

(** The dialog shows what the persisted setting says, as [show] leaves
    it with [showAdvancedCommands(getShowAdvancedCommands())]. *)
Definition in_sync (p : page) : Prop :=
  caption p = caption (showAdvancedCommands (getShowAdvancedCommands p) p)
  /\ ClassList.contains show_advanced (dialog_classes p)
     = getShowAdvancedCommands p.

End Toggle.

(** ** The message handler registered by [init] *)

Inductive jsvalue :=
| JsUndefined
| JsNull
| JsBoolean (b : bool)
| JsNumber (n : Z)
| JsString (s : list N).

(** What the handler does, in order. *)
Inductive effect :=
| AwaitSettingsLoaded          (* await Settings.onLoaded() *)
| AwaitBrowserInfo             (* await Utils.populateBrowserInfo() *)
| PostHide                     (* HelpDialogPage.hide() *)
| DialogInit                   (* HelpDialogPage.init() *)
| DialogShow                   (* await HelpDialogPage.show(event.data) *)
| SetIndicator                 (* Mode.setIndicator() *)
| HudAbandon                   (* HUD.abandon() *)
| AssertFalse (msg : list N).  (* Utils.assert(false, msg, event.data) *)

(** [case s:] of a [switch]: strict equality with a string literal. *)
Definition is_case (v : jsvalue) (s : string) : bool :=
  match v with
  | JsString x => bool_decide (x = str s)
  | _ => false
  end.

(** The handler on a message whose [event.data.name] is [v]: the calls
    it makes, in order.  A call that throws ends the handler:
    [init_returns] and [show_returns] say whether
    [HelpDialogPage.init()] and the awaited [HelpDialogPage.show()]
    return normally on the page as it is.  (The calls into the
    libraries, [Settings], [Utils], [Mode], [HUD] and the messenger,
    are taken to return.) *)
Definition handler (init_returns show_returns : bool) (v : jsvalue)
  : list effect :=
  [AwaitSettingsLoaded; AwaitBrowserInfo]
  ++ (if is_case v "hide" then [PostHide]
      else if is_case v "show" then
        DialogInit
        :: (if init_returns then
              DialogShow :: (if show_returns then [SetIndicator] else [])
            else [])
      else if is_case v "hidden" then [HudAbandon]
      else [AssertFalse (str "Unrecognized message type.")]).

Definition reaches_assert (init_returns show_returns : bool) (v : jsvalue)
  : Prop :=
  exists msg, In (AssertFalse msg) (handler init_returns show_returns v).

(** A small catalogue and binding table to evaluate the page on:
    "scrollDown" is bound to "<Down>" and "j", the other commands are
    unbound. *)
Module Example.

Definition scrollDown : command :=
  Command (str "scrollDown") (str "Scroll down") (Some (str "navigation")) None.

Definition reload : command :=
  Command (str "reload") (str "Reload the page") (Some (str "navigation")) None.

Definition showHelp : command :=
  Command (str "showHelp") (str "Show help") (Some (str "misc")) None.

Definition catalogue : list command := [scrollDown; reload; showHelp].

(** A command whose description has 38 code units. *)
Definition closeLeft : command :=
  Command (str "closeTabsOnLeft") (str "Close all tabs on the left of this one")
    (Some (str "tabs")) None.

(** The dialog before any toggle: nothing persisted, advanced commands
    hidden, one class of its own on the dialog. *)
Definition fresh_page : page :=
  Page ∅ (str "Show advanced commands") [str "panel"] 0.

(** [{ "scrollDown": { "": ["<Down>", "j"] } }], the table at 0. *)
Definition bindings : store :=
  Store {[ 0%nat := [(str "scrollDown", 1%nat)]; 1%nat := [(str "", 2%nat)] ]}
        {[ 2%nat := [str "<Down>"; str "j"] ]}.

End Example.

(** ** [HelpDialogPage.init] and [HelpDialogPage.show] *)

(** How a call ends, with the state it leaves: a normal return, or an
    exception (a [TypeError] on [null]) that leaves what was done
    before it. *)
Inductive outcome (A : Type) :=
| Returned (a : A)
| Threw (a : A).

Arguments Returned {A} a.
Arguments Threw {A} a.

Definition state_of {A} (o : outcome A) : A :=
  match o with
  | Returned a => a
  | Threw a => a
  end.

Definition returned {A} (o : outcome A) : bool :=
  match o with
  | Returned _ => true
  | Threw _ => false
  end.

(** The elements [init] listens on, and what each listener does. *)
Inductive target := CloseButton | OptionsLink | ToggleLink | DocumentElement.

Inductive on_event :=
| HideDialog       (* event.preventDefault(); this.hide() *)
| OpenOptionsPage  (* event.preventDefault(); sendMessage(openOptionsPageInNewTab) *)
| ToggleAdvanced   (* HelpDialogPage.toggleAdvancedCommands *)
| HideIfOutside.   (* this.hide() unless the dialog contains event.target *)

Record listener := Listener {
  on_target : target;
  on_name : jsstring;
  on_action : on_event
}.

(** What the selectors of [init] find in the document: the element
    "#dialog" ([None] is [null]), and whether "#close" (inside it),
    "#options-page" and "#toggle-advanced a" exist. *)
Record document := Document {
  dialog : option nat;
  close_button : bool;
  options_page : bool;
  toggle_link : bool
}.

Record controller := Controller {
  dialogElement : option nat;
  listeners : list listener
}.

(** Every call registers a function object of its own, so nothing is
    deduplicated. *)
Definition addEventListener (l : listener) (s : controller) : controller :=
  Controller (dialogElement s) (listeners s ++ [l]).

(** What else [show] looks up in the page: the element
    "#vimium-version", the templates "template#row" and
    "template#keys" (with the slots [getRowEl] fills), and the link
    "#toggle-advanced a". *)
Record surroundings := Surroundings {
  version_element : bool;
  row_templates : bool;
  toggle_anchor : bool
}.

Module HelpDialogPage.

Definition init (doc : document) (s : controller) : outcome controller :=
  match dialogElement s with
  | Some _ => Returned s
  | None =>
      match dialog doc with
      | None => Threw (Controller None (listeners s))
      | Some d =>
          let s := Controller (Some d) (listeners s) in
          if negb (close_button doc) then Threw s
          else
            let s := addEventListener
                       (Listener CloseButton (str "click") HideDialog) s in
            if negb (options_page doc) then Threw s
            else
              let s := addEventListener
                         (Listener OptionsLink (str "click") OpenOptionsPage) s in
              let s := addEventListener
                         (Listener OptionsLink (str "auxclick") OpenOptionsPage)
                         s in
              if negb (toggle_link doc) then Threw s
              else
                let s := addEventListener
                           (Listener ToggleLink (str "click") ToggleAdvanced) s in
                let s := addEventListener
                           (Listener DocumentElement (str "click") HideIfOutside)
                           s in
                Returned s
      end
  end.

Section Show.

Variable allCommands : list command.

(** [this.dialogElement.querySelector(`[data-group="${group}"]`)]: the
    container of a group in the dialog ([None] is [null]).  The
    containers of the page are not nested in one another. *)
Variable container_of : jsstring -> option nat.

(** The page around the dialog, and the controller as [init] left
    it. *)
Variable parts : surroundings.
Variable s : controller.

(** The inner loop of [show]: each row element is appended to the
    container [e].  [getRowEl] starts by reading the two templates,
    and throws when there is none. *)
Fixpoint appendRows (e : nat) (rows : list row) (σ : store)
  (dom : gmap nat (list rowEl)) : outcome (store * gmap nat (list rowEl)) :=
  match rows with
  | [] => Returned (σ, dom)
  | (c, options, keys) :: rows' =>
      if negb (row_templates parts) then Threw (σ, dom)
      else
        let '(el, σ1) := getRowEl c options keys σ in
        appendRows e rows' σ1 (alter (fun children => children ++ [el]) e dom)
  end.

(** The outer loop: the container of each group is looked up in the
    dialog, emptied ([innerHTML = ""]) and filled; without dialog or
    without container for the group the loop stops with a
    [TypeError]. *)
Fixpoint fillGroups (rowsByGroup : obj (list row)) (σ : store)
  (dom : gmap nat (list rowEl)) : outcome (store * gmap nat (list rowEl)) :=
  match rowsByGroup with
  | [] => Returned (σ, dom)
  | (group, rows) :: rest =>
      match dialogElement s with
      | None => Threw (σ, dom)
      | Some _ =>
          match container_of group with
          | None => Threw (σ, dom)
          | Some e =>
              match appendRows e rows σ (<[e := []]> dom) with
              | Threw x => Threw x
              | Returned (σ1, dom1) => fillGroups rest σ1 dom1
              end
          end
      end
  end.

(** The rows of the table that the storage read yields; without
    table ([undefined]) there are none. *)
Definition rowsOf (σ : store) (table : option loc) : obj (list row) :=
  match table with
  | Some t => getRowsForDialog allCommands σ t
  | None => []
  end.

(** [getRowsForDialog] on what the storage read yields: without table
    the lookup of the first command's name throws (with an empty
    catalogue there is no lookup, and the result is [{}]). *)
Definition readRows (σ : store) (table : option loc)
  : option (obj (list row)) :=
  match table, allCommands with
  | None, _ :: _ => None
  | _, _ => Some (rowsOf σ table)
  end.

(** [show], from the result [table] of the storage read on: the
    version text is set, the rows are computed and rendered into the
    containers, then the persisted visibility of the advanced commands
    is applied (the caption first, then the class of the dialog).
    Every step throws on a [null] it meets; the calls into the
    libraries are taken to return. *)
Definition show (σ : store) (table : option loc)
  (dom : gmap nat (list rowEl)) (p : page)
  : outcome (store * gmap nat (list rowEl) * page) :=
  if negb (version_element parts) then Threw (σ, dom, p)
  else
    match readRows σ table with
    | None => Threw (σ, dom, p)
    | Some rowsByGroup =>
        match fillGroups rowsByGroup σ dom with
        | Threw (σ', dom') => Threw (σ', dom', p)
        | Returned (σ', dom') =>
            if negb (toggle_anchor parts) then Threw (σ', dom', p)
            else
              let shown :=
                showAdvancedCommands (getShowAdvancedCommands p) p in
              match dialogElement s with
              | None =>
                  Threw (σ', dom',
                         Page (settings p) (caption shown) (dialog_classes p)
                              (scrollTop p))
              | Some _ => Returned (σ', dom', shown)
              end
        end
    end.

End Show.

End HelpDialogPage.

(** The element a row is rendered to, whatever the order of the
    arrays' sorting: its key nodes are the keys of the row's array in
    the comparator's order. *)
Definition row_element (σ : store) (r : row) : rowEl :=
  (getRowEl (row_command r) (row_options r) (row_keys r) σ).1.

(** Data to evaluate [init] and [show] on. *)
Module Sample.

Definition complete : document := Document (Some 7%nat) true true true.

Definition no_options_link : document := Document (Some 7%nat) true false true.

Definition fresh : controller := Controller None [].

(** The controller after [init] on the complete page, and a page that
    has all that [show] looks up. *)
Definition initialised : controller :=
  state_of (HelpDialogPage.init complete fresh).

Definition all_parts : surroundings := Surroundings true true true.

(** The containers of "navigation" (element 10) and "misc" (11). *)
Definition container_of (g : jsstring) : option nat :=
  if bool_decide (g = str "navigation") then Some 10%nat
  else if bool_decide (g = str "misc") then Some 11%nat
  else None.

Definition stale_row : rowEl := RowEl (str "Old row") None false [str "x"].

(** A dialog that was shown before: both containers hold a row, and
    so does an element (12) that is no container of a group. *)
Definition shown_before : gmap nat (list rowEl) :=
  {[ 10%nat := [stale_row]; 11%nat := [stale_row]; 12%nat := [stale_row] ]}.


(** The bindings of [Example], and an array (3) that is no key list of
    the table. *)
Definition with_spare : store :=
  Store (objects Example.bindings)
        {[ 2%nat := [str "<Down>"; str "j"]; 3%nat := [str "z"; str "a"] ]}.

End Sample.

(** * Properties *)

(** ** Strings *)

Section StringFacts.

Implicit Types a b c s pat : list N.

Lemma starts_with_spec pat s :
  starts_with pat s = true <-> exists post, s = pat ++ post.
Proof.
  revert s; induction pat as [|p pat IH]; intros s; simpl.
  - split; [intros _; by exists s | done].
  - destruct s as [|c s]; simpl.
    + split; [done | intros [post Hp]; discriminate].
    + destruct (N.eqb_spec p c) as [->|Hne].
      * rewrite IH. split; intros [post Hp]; exists post; simpl in *;
          congruence.
      * split; [done | intros [post Hp]; congruence].
Qed.

Lemma includes_spec s pat :
  includes s pat = true <-> exists pre post, s = pre ++ pat ++ post.
Proof.
  induction s as [|c s IH]; simpl.
  - rewrite orb_false_r, starts_with_spec. split.
    + intros [post ->]. by exists [], post.
    + intros [[|x pre] [post Hp]]; [by exists post | discriminate].
  - rewrite orb_true_iff, starts_with_spec, IH. split.
    + intros [[post ->] | (pre & post & ->)].
      * by exists [], post.
      * by exists (c :: pre), post.
    + intros ([|x pre] & post & Hp).
      * left. by exists post.
      * right. exists pre, post. simpl in Hp. congruence.
Qed.

Lemma replace_absent s (x y : N) : x ∉ s -> replace s [x] [y] = s.
Proof.
  induction s as [|c s IH]; intros Hs; [done |].
  apply not_elem_of_cons in Hs as [Hx Hs].
  simpl. destruct (N.eqb_spec x c) as [->|_]; [done |].
  by rewrite IH.
Qed.

Lemma replace_first p r (x y : N) :
  x ∉ p -> replace (p ++ x :: r) [x] [y] = p ++ y :: r.
Proof.
  induction p as [|c p IH]; intros Hp.
  - simpl. by rewrite N.eqb_refl.
  - apply not_elem_of_cons in Hp as [Hx Hp].
    simpl. destruct (N.eqb_spec x c) as [->|_]; [done |].
    by rewrite IH.
Qed.

Lemma str_lt_irrefl a : str_lt a a = false.
Proof.
  induction a as [|x a IH]; [done |].
  simpl. by rewrite N.ltb_irrefl.
Qed.

Lemma str_lt_asym a b : str_lt a b = true -> str_lt b a = false.
Proof.
  revert b; induction a as [|x a IH]; intros [|y b]; simpl; try done.
  destruct (N.ltb_spec x y), (N.ltb_spec y x); try done; try lia.
  apply IH.
Qed.

Lemma str_lt_trichotomy a b :
  str_lt a b = false -> str_lt b a = false -> a = b.
Proof.
  revert b; induction a as [|x a IH]; intros [|y b]; simpl; try done.
  destruct (N.ltb_spec x y), (N.ltb_spec y x); try done.
  intros Hab Hba. f_equal; [lia | by apply IH].
Qed.

(** [str_lt] is negatively transitive: whatever lies below [a] lies
    below [b], or [b] itself lies below [a]. *)
Lemma str_lt_cotrans a b c :
  str_lt c a = true -> str_lt c b = true \/ str_lt b a = true.
Proof.
  revert b c; induction a as [|x a IH]; intros b c.
  - by destruct c.
  - destruct c as [|z c], b as [|y b]; simpl; try (by auto).
    destruct (N.ltb_spec z x), (N.ltb_spec x z), (N.ltb_spec z y),
      (N.ltb_spec y z), (N.ltb_spec y x), (N.ltb_spec x y);
      try lia; auto.
Qed.

Lemma str_lt_app p a b : str_lt (p ++ a) (p ++ b) = str_lt a b.
Proof.
  induction p as [|x p IH]; [done |].
  simpl. by rewrite N.ltb_irrefl.
Qed.

Lemma substring_prefix s (k : Z) :
  0 <= k <= Z.of_nat (length s) -> substring s 0 k = take (Z.to_nat k) s.
Proof.
  intros Hk. unfold substring, clamp.
  replace (Z.min (Z.max 0 0) (Z.of_nat (length s))) with 0 by lia.
  replace (Z.min (Z.max k 0) (Z.of_nat (length s))) with k by lia.
  replace (Z.min 0 k) with 0 by lia.
  replace (Z.max 0 k - 0) with k by lia.
  done.
Qed.

End StringFacts.

Lemma str_lt_lit : str "<" = [LT].
Proof. reflexivity. Qed.

Lemma str_tilde_lit : str "~" = [TILDE].
Proof. reflexivity. Qed.

(** ** [ellipsize] *)

Lemma ellipsis_length : length ellipsis = 3%nat.
Proof. reflexivity. Qed.

Lemma ellipsize_short (s : list N) (n : Z) :
  Z.of_nat (length s) <= n -> ellipsize s n = s.
Proof.
  intros Hn. unfold ellipsize.
  destruct (Z.leb_spec (Z.of_nat (length s)) n); [done | lia].
Qed.

Lemma ellipsize_long (s : list N) (n : Z) :
  n < Z.of_nat (length s) ->
  ellipsize s n = take (Z.to_nat (n - 3)) s ++ str "...".
Proof.
  intros Hn. unfold ellipsize.
  destruct (Z.leb_spec (Z.of_nat (length s)) n); [lia |].
  rewrite ellipsis_length, substring_prefix by lia.
  do 2 f_equal. lia.
Qed.

Lemma ellipsize_length (s : list N) (n : Z) :
  n < Z.of_nat (length s) -> Z.of_nat (length (ellipsize s n)) = Z.max n 3.
Proof.
  intros Hn. rewrite ellipsize_long by done.
  rewrite length_app, length_take. change (length (str "...")) with 3%nat.
  lia.
Qed.

(** C1, as amended.  A string that fits is returned as it is.  A longer
    one is cut to its first [max(0, n - 3)] code units and "..." is
    appended: the result is that prefix of [s] followed by "...", so
    it ends with "..." and its length is [n] when [n >= 3], and 3 when
    [n < 3]. *)
Theorem ellipsize_spec (s : list N) (n : Z) :
  (Z.of_nat (length s) <= n -> ellipsize s n = s)
  /\ (n < Z.of_nat (length s) ->
      ellipsize s n = take (Z.to_nat (Z.max 0 (n - 3))) s ++ str "..."
      /\ ends_with (ellipsize s n) (str "...")
      /\ Z.of_nat (length (ellipsize s n)) = Z.max n 3
      /\ (3 <= n -> Z.of_nat (length (ellipsize s n)) = n)).
Proof.
  split; [apply ellipsize_short |].
  intros Hn. pose proof (ellipsize_length s n Hn) as Hlen.
  split.
  { rewrite ellipsize_long by done. do 2 f_equal. lia. }
  split; [rewrite ellipsize_long by done; by eexists |].
  split; [done | lia].
Qed.

Lemma ellipsize_spec_witness :
  ellipsize (str "hard") 25 = str "hard"
  /\ ellipsize (str "count=12") 6 = str "cou..."
  /\ Z.of_nat (length (ellipsize (str "count=12") 6)) = 6.
Proof.
  split.
  - apply (proj1 (ellipsize_spec (str "hard") 25)). vm_compute. discriminate.
  - destruct (proj2 (ellipsize_spec (str "count=12") 6)) as (Hcut & _ & _ & Hlen);
      [reflexivity |].
    split; [exact Hcut |]. apply Hlen. vm_compute. discriminate.
Defined.

(** C1 as stated fails for a budget below the length of the ellipsis:
    "abcd" does not fit in 2, and the result "..." has 3 code units. *)
Lemma ellipsize_length_counterexample :
  2 < Z.of_nat (length (str "abcd"))
  /\ ellipsize (str "abcd") 2 = str "..."
  /\ Z.of_nat (length (ellipsize (str "abcd") 2)) <> 2.
Proof. by vm_compute. Qed.

(** ** [compareKeys] *)

Section CompareKeys.

Implicit Types a b c p r : list N.

(** The label as the comparator reads it. *)
Local Abbreviation norm a := (replace a (str "<") (str "~")).

Lemma compareKeys_cases a b :
  (compareKeys a b = -1 /\ str_lt (norm a) (norm b) = true)
  \/ (compareKeys a b = 1 /\ str_lt (norm b) (norm a) = true)
  \/ (compareKeys a b = 0 /\ norm a = norm b).
Proof.
  unfold compareKeys.
  destruct (str_lt (norm a) (norm b)) eqn:Hab; [by left |].
  destruct (str_lt (norm b) (norm a)) eqn:Hba; [right; by left |].
  right; right. split; [done | by apply str_lt_trichotomy].
Qed.

Lemma key_le_iff a b : key_le a b <-> str_lt (norm b) (norm a) = false.
Proof.
  unfold key_le.
  destruct (compareKeys_cases a b) as [[-> H] | [[-> H] | [-> H]]].
  - apply str_lt_asym in H. split; [done | lia].
  - rewrite H. split; [lia | done].
  - rewrite H, str_lt_irrefl. split; [done | lia].
Qed.

Lemma key_le_refl a : key_le a a.
Proof. apply key_le_iff, str_lt_irrefl. Qed.

Lemma key_le_trans a b c : key_le a b -> key_le b c -> key_le a c.
Proof.
  rewrite !key_le_iff. intros Hab Hbc.
  destruct (str_lt (norm c) (norm a)) eqn:Hca; [| done].
  destruct (str_lt_cotrans _ (norm b) _ Hca); congruence.
Qed.

Lemma key_le_total a b : key_le a b \/ key_le b a.
Proof.
  rewrite !key_le_iff.
  destruct (str_lt (norm b) (norm a)) eqn:Hba; [| by left].
  right. by apply str_lt_asym.
Qed.

Lemma compareKeys_gt_total a b : ~ key_le a b -> key_le b a.
Proof. destruct (key_le_total a b); tauto. Qed.

(** C2, as amended.  Let [a] and [b] agree up to the first "<" of [a]:
    [a] is [p] followed by "<" and more, [b] is [p] followed by [rest].
    If [b] has no "<" and goes on, if at all, with a code unit below
    "~" (as every ASCII letter and digit is), then [a] sorts after
    [b].  With [p] empty: a label starting with "<" sorts after every
    "<"-free label starting with such a code unit. *)
Theorem compareKeys_marker_after (p r rest : list N) :
  LT ∉ p ->
  LT ∉ rest ->
  (forall x : N, head rest = Some x -> (x < TILDE)%N) ->
  compareKeys (p ++ LT :: r) (p ++ rest) = 1.
Proof.
  intros Hp Hrest Hhd. unfold compareKeys.
  rewrite str_lt_lit, str_tilde_lit.
  rewrite replace_first by done.
  rewrite (replace_absent (p ++ rest)).
  2:{ rewrite elem_of_app. tauto. }
  rewrite !str_lt_app.
  destruct rest as [|x rest]; [done |].
  specialize (Hhd x eq_refl). simpl.
  destruct (N.ltb_spec TILDE x); [lia |].
  destruct (N.ltb_spec x TILDE); [done | lia].
Qed.

Lemma compareKeys_marker_after_witness :
  compareKeys (str "<Down>") (str "j") = 1.
Proof.
  apply (compareKeys_marker_after [] (str "Down>") (str "j")).
  - compute_done.
  - compute_done.
  - intros x [= <-]. reflexivity.
Defined.

(** C2 as stated fails: "a<" contains the marker, "b" does not, and
    "a<" sorts before "b". *)
Lemma compareKeys_marker_counterexample :
  (LT ∈ str "a<") /\ (LT ∉ str "b")
  /\ compareKeys (str "a<") (str "b") = -1
  /\ ~ (compareKeys (str "a<") (str "b") > 0).
Proof.
  split; [| split; [| split]].
  - compute_done.
  - compute_done.
  - reflexivity.
  - by vm_compute.
Qed.

Lemma replace_rewritten a a' :
  first_marker_rewritten a a' -> replace a (str "<") (str "~") = a'.
Proof.
  rewrite str_lt_lit, str_tilde_lit.
  intros [[Ha ->] | (p & r & Hp & -> & ->)].
  - by apply replace_absent.
  - by apply replace_first.
Qed.

Lemma first_marker_rewritten_total a : exists a', first_marker_rewritten a a'.
Proof.
  induction a as [|x a [a' IH]]; [exists []; left; split; [| done] |].
  - apply not_elem_of_nil.
  - destruct (decide (x = LT)) as [->|Hx].
    + exists (TILDE :: a). right. exists [], a.
      split; [apply not_elem_of_nil | done].
    + destruct IH as [[Ha ->] | (p & r & Hp & -> & ->)].
      * exists (x :: a). left. split; [| done].
        apply not_elem_of_cons. split; [congruence | done].
      * exists (x :: p ++ TILDE :: r). right. exists (x :: p), r.
        split; [| done]. apply not_elem_of_cons. split; [congruence | done].
Qed.

(** C9.  The comparator compares, in the plain order of strings, the
    two labels with only their first "<" rewritten to "~": a second
    "<" stays ("<<" sorts before "~~", while "<" and "~" compare
    equal).  So it reads "a<b" and "a~b" alike and returns 0 on this
    pair of distinct labels.  The order it induces is reflexive,
    transitive and total, and it is not antisymmetric. *)
Theorem compareKeys_total_preorder :
  (forall p r, LT ∉ p ->
     replace (p ++ LT :: r) (str "<") (str "~") = p ++ TILDE :: r)
  /\ (str "a<b" <> str "a~b" /\ compareKeys (str "a<b") (str "a~b") = 0)
  /\ (forall a, key_le a a)
  /\ (forall a b c, key_le a b -> key_le b c -> key_le a c)
  /\ (forall a b, key_le a b \/ key_le b a)
  /\ ~ (forall a b, key_le a b -> key_le b a -> a = b)
  /\ (forall a a' b b',
        first_marker_rewritten a a' -> first_marker_rewritten b b' ->
        compareKeys a b
        = if str_lt a' b' then -1 else if str_lt b' a' then 1 else 0)
  /\ (forall a, exists a', first_marker_rewritten a a')
  /\ compareKeys (str "<<") (str "~~") = -1
  /\ compareKeys (str "<") (str "~") = 0.
Proof.
  split; [| split; [| split; [| split; [| split; [| split; [| split;
    [| split]]]]]]].
  - intros p r Hp. rewrite str_lt_lit, str_tilde_lit. by apply replace_first.
  - split; [by vm_compute | reflexivity].
  - apply key_le_refl.
  - apply key_le_trans.
  - apply key_le_total.
  - intros Hanti.
    assert (H : str "a<b" = str "a~b") by (apply Hanti; by vm_compute).
    by vm_compute in H.
  - intros a a' b b' Ha Hb. unfold compareKeys.
    by rewrite (replace_rewritten a a' Ha), (replace_rewritten b b' Hb).
  - apply first_marker_rewritten_total.
  - split; reflexivity.
Qed.

End CompareKeys.

(** ** [isAdvancedCommand] *)

(** C5.  [isAdvancedCommand] is true exactly when the command is marked
    advanced, whatever the options, or it is named "reload" and the
    options contain "hard". *)
Theorem isAdvancedCommand_spec (c : command) (options : list N) :
  (advanced c = Some true -> isAdvancedCommand c options = true)
  /\ (advanced c <> Some true ->
      (isAdvancedCommand c options = true <->
       name c = str "reload"
       /\ exists pre post, options = pre ++ str "hard" ++ post))
  /\ (advanced c <> Some true -> name c <> str "reload" ->
      isAdvancedCommand c options = false).
Proof.
  unfold isAdvancedCommand.
  split; [by intros -> |].
  split.
  - intros Hadv.
    assert (truthy (advanced c) = false) as ->
      by (by destruct (advanced c) as [[]|]).
    by rewrite andb_true_iff, bool_decide_eq_true, includes_spec.
  - intros Hadv Hname.
    assert (truthy (advanced c) = false) as ->
      by (by destruct (advanced c) as [[]|]).
    by rewrite bool_decide_eq_false_2.
Qed.

Lemma isAdvancedCommand_spec_witness :
  isAdvancedCommand
    (Command (str "reload") (str "Reload the page") (Some (str "navigation"))
       None)
    (str "hard") = true
  /\ isAdvancedCommand
       (Command (str "reload") (str "Reload the page")
          (Some (str "navigation")) None)
       (str "") = false.
Proof.
  set (c := Command _ _ _ _). split.
  - apply (proj1 (proj2 (isAdvancedCommand_spec c (str "hard")))); [done |].
    split; [done |]. by exists [], [].
  - destruct (isAdvancedCommand c (str "")) eqn:E; [| done].
    apply (proj1 (proj2 (isAdvancedCommand_spec c (str "")))) in E
      as [_ (pre & post & E)]; [| done].
    by destruct pre.
Defined.

(** ** Objects *)

Section ObjectFacts.

Context {V : Type}.
Implicit Types (k : list N) (v : V) (o : list (list N * V)).

Lemma obj_get_None k o : obj_get k o = None <-> k ∉ keys o.
Proof.
  unfold keys. induction o as [|[k' v'] o IH]; simpl.
  - split; [intros _; apply not_elem_of_nil | done].
  - rewrite not_elem_of_cons, <- IH. case_bool_decide as Hk.
    + split; [done | intros [? _]; congruence].
    + split; [intros H; split; [congruence | done] | by intros [_ ?]].
Qed.

Lemma obj_get_is_Some k o : is_Some (obj_get k o) <-> k ∈ keys o.
Proof.
  rewrite <- not_eq_None_Some, obj_get_None.
  destruct (decide (k ∈ keys o)); tauto.
Qed.

Lemma obj_get_elem k v o : obj_get k o = Some v -> (k, v) ∈ o.
Proof.
  induction o as [|[k' v'] o IH]; simpl; [done |].
  case_bool_decide as Hk.
  - intros [= ->]. subst. apply list_elem_of_here.
  - intros H. apply list_elem_of_further. auto.
Qed.

Lemma elem_obj_get k v o : NoDup (keys o) -> (k, v) ∈ o -> obj_get k o = Some v.
Proof.
  unfold keys. induction o as [|[k' v'] o IH]; simpl.
  - by intros _ ?%elem_of_nil.
  - intros [Hk' Hnd]%NoDup_cons [[= -> ->] | Hin]%elem_of_cons.
    + by rewrite bool_decide_eq_true_2.
    + rewrite bool_decide_eq_false_2; [by apply IH |].
      intros ->. apply Hk'. apply list_elem_of_fmap. by exists (k, v).
Qed.

Lemma keys_overwrite k v o : keys (overwrite k v o) = keys o.
Proof.
  unfold keys. induction o as [|[k' v'] o IH]; [done |].
  simpl. case_bool_decide; csimpl; [done | by f_equal].
Qed.

Lemma obj_get_overwrite k v o k' :
  is_Some (obj_get k o) ->
  obj_get k' (overwrite k v o) = if decide (k = k') then Some v else obj_get k' o.
Proof.
  induction o as [|[k0 v0] o IH]; simpl.
  - by intros [? ?].
  - intros Hk. case_bool_decide as Hk0; simpl.
    + subst k0. destruct (decide (k = k')) as [->|Hne].
      * by rewrite bool_decide_eq_true_2.
      * by rewrite !bool_decide_eq_false_2.
    + case_bool_decide; [by rewrite decide_False by congruence |].
      by apply IH.
Qed.

Lemma place_index_perm n k v o : place_index n k v o ≡ₚ (k, v) :: o.
Proof.
  induction o as [|[k' v'] o IH]; simpl; [done |].
  destruct (array_index k') as [n'|]; [| done].
  destruct (n' <? n)%N; [| done].
  rewrite IH. apply Permutation_swap.
Qed.

Lemma place_new_perm k v o : place_new k v o ≡ₚ (k, v) :: o.
Proof.
  unfold place_new. destruct (array_index k).
  - apply place_index_perm.
  - by rewrite Permutation_app_comm.
Qed.

Lemma obj_get_place_index n k v o k' :
  obj_get k o = None ->
  obj_get k' (place_index n k v o) = if decide (k = k') then Some v else obj_get k' o.
Proof.
  induction o as [|[k0 v0] o IH]; simpl.
  - intros _. case_bool_decide; case_decide; congruence.
  - case_bool_decide as Hk0; [done |]. intros Hk.
    destruct (array_index k0) as [n'|]; [destruct (n' <? n)%N |]; simpl.
    + rewrite IH by done. case_bool_decide; case_decide; congruence.
    + case_bool_decide; case_decide; congruence.
    + case_bool_decide; case_decide; congruence.
Qed.

Lemma obj_get_app k o1 o2 :
  obj_get k (o1 ++ o2) = match obj_get k o1 with
                         | Some v => Some v
                         | None => obj_get k o2
                         end.
Proof.
  induction o1 as [|[k' v'] o1 IH]; simpl; [done |]. by case_bool_decide.
Qed.

Lemma obj_get_obj_set k v o k' :
  obj_get k' (obj_set k v o) = if decide (k = k') then Some v else obj_get k' o.
Proof.
  unfold obj_set. destruct (obj_get k o) as [v0|] eqn:Hk.
  - apply obj_get_overwrite. by rewrite Hk.
  - unfold place_new. destruct (array_index k).
    + by apply obj_get_place_index.
    + rewrite obj_get_app. simpl. case_decide as Hkk.
      * subst k'. by rewrite Hk, bool_decide_eq_true_2.
      * rewrite bool_decide_eq_false_2 by done. by destruct (obj_get k' o).
Qed.

Lemma keys_obj_set_NoDup k v o : NoDup (keys o) -> NoDup (keys (obj_set k v o)).
Proof.
  intros Hnd. unfold obj_set. destruct (obj_get k o) eqn:Hk.
  - by rewrite keys_overwrite.
  - apply obj_get_None in Hk. unfold keys in *.
    rewrite (place_new_perm k v o). simpl. by apply NoDup_cons.
Qed.

Lemma obj_get_assign k v o k' :
  obj_get k' (assign k v o)
  = if decide (k = k' /\ k <> str "__proto__") then Some v else obj_get k' o.
Proof.
  unfold assign. case_bool_decide as Hp.
  - rewrite decide_False; [done | tauto].
  - rewrite obj_get_obj_set. repeat case_decide; tauto || done.
Qed.

Lemma keys_assign_NoDup k v o : NoDup (keys o) -> NoDup (keys (assign k v o)).
Proof.
  unfold assign. case_bool_decide; [done | apply keys_obj_set_NoDup].
Qed.

End ObjectFacts.

Section GroupBy.

Context {A : Type} (f : A -> list N).

Lemma push_group_NoDup k (x : A) o :
  NoDup (keys o) -> NoDup (keys (push_group k x o)).
Proof.
  unfold push_group. destruct (obj_get k o); apply keys_obj_set_NoDup.
Qed.

Lemma obj_get_push_group k (x : A) o k' :
  obj_get k' (push_group k x o)
  = if decide (k = k') then Some (default [] (obj_get k o) ++ [x])
    else obj_get k' o.
Proof.
  unfold push_group.
  destruct (obj_get k o) eqn:Hk; rewrite obj_get_obj_set; by case_decide.
Qed.

Lemma groupBy_acc_NoDup (items : list A) o :
  NoDup (keys o) ->
  NoDup (keys (foldl (fun o x => push_group (f x) x o) o items)).
Proof.
  revert o; induction items as [|x items IH]; intros o Hnd; [done |].
  simpl. by apply IH, push_group_NoDup.
Qed.

Lemma groupBy_NoDup (items : list A) : NoDup (keys (groupBy items f)).
Proof. apply groupBy_acc_NoDup. unfold keys. simpl. apply NoDup_nil_2. Qed.

Lemma obj_get_groupBy_acc (items : list A) o g :
  obj_get g (foldl (fun o x => push_group (f x) x o) o items)
  = match obj_get g o, members f g items with
    | None, [] => None
    | ol, its => Some (default [] ol ++ its)
    end.
Proof.
  revert o; induction items as [|x items IH]; intros o; simpl.
  - destruct (obj_get g o); simpl; by rewrite ?app_nil_r.
  - rewrite IH, obj_get_push_group.
    case_decide as Hx.
    + rewrite bool_decide_eq_true_2 by done. subst g.
      destruct (obj_get (f x) o); simpl; by rewrite <- ?app_assoc.
    + by rewrite bool_decide_eq_false_2.
Qed.

(** The group of [g] holds the items of key [g], in their order, and
    there is no group without an item. *)
Lemma obj_get_groupBy (items : list A) g :
  obj_get g (groupBy items f)
  = match members f g items with
    | [] => None
    | its => Some its
    end.
Proof. unfold groupBy. by rewrite obj_get_groupBy_acc. Qed.

Lemma members_nil_iff (g : list N) (items : list A) :
  members f g items = [] <-> forall x, x ∈ items -> f x <> g.
Proof.
  unfold members. induction items as [|x items IH]; simpl.
  - split; [by intros _ ? ?%elem_of_nil | done].
  - case_bool_decide as Hx.
    + split; [done |]. intros H. destruct (H x); [apply list_elem_of_here | done].
    + rewrite IH. split.
      * intros H y [->|Hy]%elem_of_cons; auto.
      * intros H y Hy. apply H. by apply list_elem_of_further.
Qed.

Lemma groupBy_keys (items : list A) g :
  g ∈ keys (groupBy items f) <-> exists x, x ∈ items /\ f x = g.
Proof.
  rewrite <- obj_get_is_Some, obj_get_groupBy.
  destruct (members f g items) as [|y its] eqn:Hm.
  - pose proof (proj1 (members_nil_iff g items) Hm) as Hnone.
    split; [by intros [? ?] |].
    intros (x & Hx & Hfx). by destruct (Hnone x Hx).
  - split; [intros _ | by eexists].
    assert (Hy : In y (members f g items)) by (rewrite Hm; by left).
    apply filter_In in Hy as [Hy Hg]. apply bool_decide_eq_true in Hg.
    exists y. by rewrite list_elem_of_In.
Qed.

End GroupBy.

(** ** [getRowsForDialog] *)

Section RowsFacts.

Variable allCommands : list command.
Implicit Types (σ : store) (t : nat) (c : command) (g : list N).

Lemma rows_of_elem σ t (commands : list command) (r : row) :
  r ∈ rows_of σ t commands <->
  row_command r ∈ commands
  /\ (row_options r, row_keys r) ∈ variations σ t (row_command r).
Proof.
  unfold rows_of. rewrite list_elem_of_In, in_flat_map. split.
  - intros (c & Hc & Hr). apply in_map_iff in Hr as ([o k] & <- & Hok).
    simpl. by rewrite !list_elem_of_In.
  - destruct r as [[c o] k]. simpl. intros [Hc Hok].
    exists c. rewrite <- list_elem_of_In. split; [done |].
    apply in_map_iff. exists (o, k). by rewrite <- list_elem_of_In.
Qed.

(** A command without an entry in the table has no variations. *)
Lemma variations_unbound σ t c :
  obj_get (name c) (get_object σ t) = None -> variations σ t c = [].
Proof. unfold variations. by intros ->. Qed.

Lemma rows_of_unbound σ t (commands : list command) :
  (forall c, c ∈ commands -> obj_get (name c) (get_object σ t) = None) ->
  rows_of σ t commands = [].
Proof.
  intros Hun. destruct (rows_of σ t commands) as [|r rows] eqn:Hrows; [done |].
  assert (Hr : r ∈ rows_of σ t commands) by (rewrite Hrows; apply list_elem_of_here).
  apply rows_of_elem in Hr as [Hc Hok].
  rewrite (variations_unbound σ t _ (Hun _ Hc)) in Hok.
  by apply elem_of_nil in Hok.
Qed.

Local Abbreviation step σ t :=
  (fun (result : list (list N * list row)) '(group, commands) =>
     assign group (rows_of σ t commands) result).

Lemma rows_fold_NoDup σ t (byGroup : list (list N * list command)) result :
  NoDup (keys result) -> NoDup (keys (foldl (step σ t) result byGroup)).
Proof.
  revert result; induction byGroup as [|[k cmds] bg IH]; intros result Hnd;
    [done |].
  simpl. by apply IH, keys_assign_NoDup.
Qed.

Lemma obj_get_rows_fold σ t (byGroup : list (list N * list command)) result g :
  NoDup (keys byGroup) ->
  obj_get g (foldl (step σ t) result byGroup)
  = match (if decide (g = str "__proto__") then None else obj_get g byGroup) with
    | Some commands => Some (rows_of σ t commands)
    | None => obj_get g result
    end.
Proof.
  revert result; induction byGroup as [|[k cmds] bg IH]; intros result Hnd.
  - simpl. by case_decide.
  - unfold keys in Hnd. simpl in Hnd. apply NoDup_cons in Hnd as [Hk Hnd].
    simpl. rewrite IH by done. rewrite obj_get_assign.
    destruct (decide (g = str "__proto__")) as [Hg|Hg].
    + rewrite decide_False; [done |]. intros [-> ?]. done.
    + case_bool_decide as Hkg.
      * subst k. apply obj_get_None in Hk. rewrite Hk.
        by rewrite decide_True.
      * destruct (obj_get g bg); [done |].
        rewrite decide_False; [done | tauto].
Qed.

Lemma getRowsForDialog_NoDup σ t :
  NoDup (keys (getRowsForDialog allCommands σ t)).
Proof. apply rows_fold_NoDup. unfold keys. simpl. apply NoDup_nil_2. Qed.

(** The rows of a group: those of its commands, in the order of
    [allCommands]. *)
Lemma obj_get_getRowsForDialog σ t g :
  obj_get g (getRowsForDialog allCommands σ t)
  = if decide (g = str "__proto__") then None
    else match members group_key g allCommands with
         | [] => None
         | commands => Some (rows_of σ t commands)
         end.
Proof.
  unfold getRowsForDialog.
  rewrite obj_get_rows_fold by apply groupBy_NoDup.
  case_decide; [done |]. rewrite obj_get_groupBy.
  by destruct (members group_key g allCommands).
Qed.

Lemma getRowsForDialog_rows σ t g (rows : list row) :
  (g, rows) ∈ getRowsForDialog allCommands σ t ->
  rows = rows_of σ t (members group_key g allCommands).
Proof.
  intros Hin. apply elem_obj_get in Hin; [| apply getRowsForDialog_NoDup].
  rewrite obj_get_getRowsForDialog in Hin. case_decide; [done |].
  destruct (members group_key g allCommands); by inversion Hin.
Qed.

(** C4.  A command whose name has no entry in the binding table gets
    no row: in no group is there a row of that command, nor of any
    command of that name. *)
Theorem unbound_command_has_no_row σ t c :
  obj_get (name c) (get_object σ t) = None ->
  forall g (rows : list row) (r : row),
    (g, rows) ∈ getRowsForDialog allCommands σ t ->
    r ∈ rows ->
    name (row_command r) <> name c /\ row_command r <> c.
Proof.
  intros Hun g rows r Hg Hr.
  apply getRowsForDialog_rows in Hg. subst rows.
  apply rows_of_elem in Hr as [_ Hok].
  assert (Hne : name (row_command r) <> name c).
  { intros Hname. unfold variations in Hok.
    rewrite Hname, Hun in Hok. by apply elem_of_nil in Hok. }
  split; [done | congruence].
Qed.

(** C10.  The object returned has exactly the group names of
    [allCommands] as keys, each once; a group whose commands all lack
    an entry in the binding table is there with an empty list of rows;
    a command without a group is under "undefined".  (The result is an
    object literal, on which the name "__proto__" cannot be created by
    assignment: the catalogue has no group of that name.) *)
Theorem getRowsForDialog_groups σ t :
  Forall (fun c => group_key c <> str "__proto__") allCommands ->
  (forall g, g ∈ keys (getRowsForDialog allCommands σ t)
             <-> exists c, c ∈ allCommands /\ group_key c = g)
  /\ NoDup (keys (getRowsForDialog allCommands σ t))
  /\ (forall c, c ∈ allCommands ->
        (forall c', c' ∈ allCommands -> group_key c' = group_key c ->
                    obj_get (name c') (get_object σ t) = None) ->
        obj_get (group_key c) (getRowsForDialog allCommands σ t) = Some [])
  /\ (forall c, c ∈ allCommands -> group c = None ->
        str "undefined" ∈ keys (getRowsForDialog allCommands σ t)).
Proof.
  intros Hproto. rewrite Forall_forall in Hproto.
  assert (Hkeys : forall g, g ∈ keys (getRowsForDialog allCommands σ t)
                            <-> exists c, c ∈ allCommands /\ group_key c = g).
  { intros g. rewrite <- obj_get_is_Some, obj_get_getRowsForDialog.
    rewrite <- groupBy_keys, <- obj_get_is_Some, obj_get_groupBy.
    case_decide as Hg.
    - split; [by intros [? ?] |].
      destruct (members group_key g allCommands) as [|c cs] eqn:Hm;
        [by intros [? ?] |].
      assert (Hc : In c (members group_key g allCommands))
        by (rewrite Hm; by left).
      apply filter_In in Hc as [Hc Hgc]. apply bool_decide_eq_true in Hgc.
      destruct (Hproto c); [by apply list_elem_of_In | congruence].
    - destruct (members group_key g allCommands); split; intros [? ?];
        done || by eexists. }
  split; [done |]. split; [apply getRowsForDialog_NoDup |]. split.
  - intros c Hc Hun. rewrite obj_get_getRowsForDialog.
    rewrite decide_False by (by apply Hproto).
    destruct (members group_key (group_key c) allCommands) eqn:Hm.
    + pose proof (proj1 (members_nil_iff _ _ _) Hm) as Hnone.
      by destruct (Hnone c Hc).
    + rewrite <- Hm. f_equal. apply rows_of_unbound.
      intros c' Hc'. apply list_elem_of_In, filter_In in Hc' as [Hc' Hgc].
      apply bool_decide_eq_true in Hgc. apply Hun; [| done].
      by apply list_elem_of_In.
  - intros c Hc Hgroup. apply Hkeys. exists c. split; [done |].
    unfold group_key. by rewrite Hgroup.
Qed.

End RowsFacts.

Lemma unbound_command_has_no_row_witness :
  obj_get (name Example.reload) (get_object Example.bindings 0%nat) = None
  /\ forall g (rows : list row) (r : row),
       (g, rows) ∈ getRowsForDialog Example.catalogue Example.bindings 0%nat ->
       r ∈ rows ->
       name (row_command r) <> name Example.reload
       /\ row_command r <> Example.reload.
Proof.
  split; [reflexivity |].
  apply (unbound_command_has_no_row Example.catalogue Example.bindings 0%nat
           Example.reload).
  reflexivity.
Defined.

Lemma getRowsForDialog_groups_witness :
  obj_get (str "misc")
    (getRowsForDialog Example.catalogue Example.bindings 0%nat) = Some []
  /\ keys (getRowsForDialog Example.catalogue Example.bindings 0%nat)
     = [str "navigation"; str "misc"].
Proof.
  split; [| reflexivity].
  assert (Hproto : Forall (fun c => group_key c <> str "__proto__")
                     Example.catalogue)
    by (repeat constructor; by vm_compute).
  apply (proj1 (proj2 (proj2
    (getRowsForDialog_groups Example.catalogue Example.bindings 0%nat Hproto)))
    Example.showHelp).
  - apply list_elem_of_In. simpl. tauto.
  - intros c' Hc' Hg.
    apply list_elem_of_In in Hc'. simpl in Hc'.
    destruct Hc' as [<- | [<- | [<- | []]]]; done.
Defined.

(** ** Sorting in place *)

Section SortFacts.

Context {A : Type} (cmp : A -> A -> Z).

Local Abbreviation le := (fun a b => cmp a b <= 0).

Hypothesis cmp_total : forall a b, le a b \/ le b a.

Lemma insert_sorted_perm (x : A) (l : list A) : insert_sorted cmp x l ≡ₚ x :: l.
Proof.
  induction l as [|y l IH]; simpl; [done |].
  destruct (cmp x y <=? 0); [done |].
  rewrite IH. apply Permutation_swap.
Qed.

Lemma sort_perm (l : list A) : sort cmp l ≡ₚ l.
Proof.
  induction l as [|x l IH]; simpl; [done |].
  by rewrite insert_sorted_perm, IH.
Qed.

Lemma insert_sorted_HdRel (a x : A) (l : list A) :
  le a x -> HdRel le a l -> HdRel le a (insert_sorted cmp x l).
Proof.
  intros Hax Hal. destruct l as [|y l]; simpl; [by constructor |].
  destruct (cmp x y <=? 0); constructor; [done |].
  by inversion Hal.
Qed.

Lemma insert_sorted_Sorted (x : A) (l : list A) :
  Sorted le l -> Sorted le (insert_sorted cmp x l).
Proof.
  induction 1 as [|y l Hl IH Hy]; simpl; [by repeat constructor |].
  destruct (Z.leb_spec (cmp x y) 0) as [Hxy|Hxy].
  - by repeat constructor.
  - constructor; [done |]. apply insert_sorted_HdRel; [| done].
    destruct (cmp_total x y); [lia | done].
Qed.

Lemma sort_Sorted (l : list A) : Sorted le (sort cmp l).
Proof.
  induction l as [|x l IH]; simpl; [constructor |].
  by apply insert_sorted_Sorted.
Qed.

(** Sorting a sorted array changes nothing. *)
Lemma sort_of_Sorted (l : list A) : Sorted le l -> sort cmp l = l.
Proof.
  induction 1 as [|x l Hl IH Hx]; simpl; [done |].
  rewrite IH. destruct Hx as [|y l Hxy]; simpl; [done |].
  destruct (Z.leb_spec (cmp x y) 0); [done | lia].
Qed.

Lemma sort_idemp (l : list A) : sort cmp (sort cmp l) = sort cmp l.
Proof. apply sort_of_Sorted, sort_Sorted. Qed.

End SortFacts.

(** ** Rendering and the store *)

Section RenderFacts.

Variable allCommands : list command.
Implicit Types (σ : store) (t : nat) (c : command) (rows : list row).

Local Abbreviation sort_row :=
  (fun σ (r : row) => array_sort compareKeys (row_keys r) σ).

Lemma getRowEl_store c (options : list N) (k : nat) σ :
  (getRowEl c options k σ).2 = array_sort compareKeys k σ.
Proof. unfold getRowEl. by case_bool_decide. Qed.

Lemma renderRows_store rows σ : (renderRows rows σ).2 = foldl sort_row σ rows.
Proof.
  revert σ; induction rows as [|[[c o] k] rows IH]; intros σ; [done |].
  simpl. pose proof (getRowEl_store c o k σ) as Hel.
  destruct (getRowEl c o k σ) as [el σ1]. simpl in Hel. subst σ1.
  specialize (IH (array_sort compareKeys k σ)).
  by destruct (renderRows rows (array_sort compareKeys k σ)).
Qed.

Lemma renderGroups_store (rowsByGroup : list (list N * list row)) σ :
  (renderGroups rowsByGroup σ).2
  = foldl sort_row σ (concat (List.map snd rowsByGroup)).
Proof.
  revert σ; induction rowsByGroup as [|[g rows] rest IH]; intros σ; [done |].
  simpl. rewrite foldl_app. pose proof (renderRows_store rows σ) as Hrows.
  destruct (renderRows rows σ) as [els σ1]. simpl in Hrows. subst σ1.
  specialize (IH (foldl sort_row σ rows)).
  by destruct (renderGroups rest (foldl sort_row σ rows)).
Qed.

Lemma sort_rows_objects rows σ : objects (foldl sort_row σ rows) = objects σ.
Proof.
  revert σ; induction rows as [|r rows IH]; intros σ; [done |].
  simpl. by rewrite IH.
Qed.

Lemma sort_rows_arrays rows σ (l : nat) :
  arrays (foldl sort_row σ rows) !! l
  = if decide (l ∈ List.map row_keys rows)
    then sort compareKeys <$> arrays σ !! l
    else arrays σ !! l.
Proof.
  revert σ; induction rows as [|r rows IH]; intros σ.
  - destruct (decide (l ∈ List.map row_keys [])) as [Hin|_]; [| done].
    by apply elem_of_nil in Hin.
  - change (foldl sort_row σ (r :: rows))
      with (foldl sort_row (array_sort compareKeys (row_keys r) σ) rows).
    rewrite IH. change (List.map row_keys (r :: rows))
      with (row_keys r :: List.map row_keys rows).
    unfold array_sort at 1 2. simpl arrays. rewrite lookup_alter.
    destruct (decide (l ∈ List.map row_keys rows)) as [Hin|Hin].
    + rewrite (decide_True _ _ (list_elem_of_further _ _ _ Hin)).
      case_decide as Hk; [subst l | done].
      destruct (arrays σ !! row_keys r) as [ks|]; simpl; [| done].
      f_equal. apply sort_idemp, key_le_total.
    + destruct (decide (row_keys r = l)) as [Hk|Hk].
      * subst l. by rewrite (decide_True _ _ (list_elem_of_here _ _)).
      * rewrite decide_False; [done |].
        intros [?|?]%elem_of_cons; [congruence | done].
Qed.

(** The key lists handed to [getRowEl] are those of the variations of
    the catalogued commands. *)
Lemma rendered_keys_spec σ t (l : nat) :
  l ∈ rendered_keys (getRowsForDialog allCommands σ t) <->
  exists c (options : list N),
    c ∈ allCommands /\ group_key c <> str "__proto__"
    /\ (options, l) ∈ variations σ t c.
Proof.
  unfold rendered_keys. rewrite list_elem_of_In, in_map_iff. split.
  - intros (r & <- & Hr). apply in_concat in Hr as (rows & Hrows & Hr).
    apply in_map_iff in Hrows as ([g rows'] & <- & Hg). simpl in Hr.
    apply list_elem_of_In in Hg, Hr.
    pose proof (getRowsForDialog_rows allCommands σ t g rows' Hg) as ->.
    apply elem_obj_get in Hg; [| apply getRowsForDialog_NoDup].
    rewrite obj_get_getRowsForDialog in Hg. case_decide as Hproto; [done |].
    apply rows_of_elem in Hr as [Hc Hok].
    apply list_elem_of_In, filter_In in Hc as [Hc Hgc].
    apply bool_decide_eq_true in Hgc.
    exists (row_command r), (row_options r).
    split; [by apply list_elem_of_In |]. split; [congruence | done].
  - intros (c & o & Hc & Hproto & Hok).
    exists (c, o, l). split; [done |]. apply in_concat.
    exists (rows_of σ t (members group_key (group_key c) allCommands)).
    assert (Hm : c ∈ members group_key (group_key c) allCommands).
    { apply list_elem_of_In, filter_In. split; [by apply list_elem_of_In |].
      by apply bool_decide_eq_true. }
    split.
    + apply in_map_iff. exists (group_key c, rows_of σ t
        (members group_key (group_key c) allCommands)).
      split; [done |]. apply list_elem_of_In, obj_get_elem.
      rewrite obj_get_getRowsForDialog, decide_False by done.
      destruct (members group_key (group_key c) allCommands); [| done].
      by apply elem_of_nil in Hm.
    + apply list_elem_of_In, rows_of_elem. by split.
Qed.

(** C3, as amended.  Rendering writes to no object of the store: the
    binding table and its options maps keep their entries.  The key
    list of every rendered row is sorted in place by [compareKeys]: it
    ends up holding the same keys in comparator order, whatever their
    original order; all other arrays are unchanged. *)
Theorem renderDialog_frame σ t :
  objects (renderDialog allCommands σ t).2 = objects σ
  /\ (forall l : nat,
        arrays (renderDialog allCommands σ t).2 !! l
        = if decide (l ∈ rendered_keys (getRowsForDialog allCommands σ t))
          then sort compareKeys <$> arrays σ !! l
          else arrays σ !! l)
  /\ (forall ks : list (list N),
        sort compareKeys ks ≡ₚ ks /\ Sorted key_le (sort compareKeys ks)).
Proof.
  unfold renderDialog. rewrite renderGroups_store.
  split; [apply sort_rows_objects |].
  split; [intros l; apply sort_rows_arrays |].
  intros ks. split; [apply sort_perm |].
  apply (sort_Sorted compareKeys key_le_total).
Qed.

End RenderFacts.

(** C3 as stated fails: rendering the table
    [{ "scrollDown": { "": ["<Down>", "j"] } }] leaves its key list as
    [["j", "<Down>"]]. *)
Lemma renderDialog_mutates_keys :
  let σ' := (renderDialog Example.catalogue Example.bindings 0%nat).2 in
  arrays Example.bindings !! 2%nat = Some [str "<Down>"; str "j"]
  /\ arrays σ' !! 2%nat = Some [str "j"; str "<Down>"]
  /\ arrays σ' !! 2%nat <> arrays Example.bindings !! 2%nat.
Proof. by vm_compute. Qed.

(** ** [getRowEl]: the label of a row *)

Section LabelFacts.

Implicit Types (σ : store) (c : command) (options : list N) (k : nat).

(** C6, as amended.  Without options the label is the description and
    no title is set.  With options the label is the description, then
    [ellipsize(options, 40 - desc.length)] in parentheses: options that
    fit the budget are shown whole, longer ones are cut to their start
    and end in "..."; the title with the full text is set exactly when
    the options shown differ from the options.  When the budget is at
    least 3 (a description of at most 37 code units), options over the
    budget are shown in exactly the budget (description and options
    shown have 40 code units together, the parentheses and the space
    not counted) and the title is set. *)
Theorem getRowEl_label c options k σ :
  let el := (getRowEl c options k σ).1 in
  let budget := 40 - Z.of_nat (length (desc c)) in
  let shown := ellipsize options budget in
  let full := desc c ++ str " (" ++ options ++ str ")" in
  (options = str "" -> help_description el = desc c /\ help_title el = None)
  /\ (options <> str "" ->
      help_description el = desc c ++ str " (" ++ shown ++ str ")"
      /\ help_title el = (if decide (shown = options) then None else Some full)
      /\ (Z.of_nat (length options) <= budget ->
          shown = options /\ help_title el = None)
      /\ (budget < Z.of_nat (length options) ->
          shown = take (Z.to_nat (budget - 3)) options ++ str "..."
          /\ (3 <= budget ->
              Z.of_nat (length (desc c)) + Z.of_nat (length shown) = 40
              /\ help_title el = Some full))).
Proof.
  intros el budget shown full. subst el. unfold getRowEl, maxLength.
  fold budget. fold shown. fold full.
  split.
  - intros Ho. by rewrite bool_decide_eq_true_2.
  - intros Ho. rewrite bool_decide_eq_false_2 by done. simpl.
    assert (Htitle : (if negb (bool_decide (shown = options))
                      then Some full else None)
                     = if decide (shown = options) then None else Some full).
    { case_bool_decide; by case_decide. }
    rewrite Htitle. split; [done |]. split; [done |]. split.
    + intros Hfit. assert (shown = options) as Hs by by apply ellipsize_short.
      split; [done |]. by rewrite decide_True.
    + intros Hlong. split; [by apply ellipsize_long |]. intros Hb.
      pose proof (ellipsize_length options budget Hlong) as Hlen.
      fold shown in Hlen. split; [lia |].
      rewrite decide_False; [done |]. intros Heq. rewrite Heq in Hlen. lia.
Qed.

End LabelFacts.

Lemma getRowEl_label_witness :
  help_description (getRowEl Example.reload (str "hard") 2%nat Example.bindings).1
  = str "Reload the page (hard)"
  /\ help_title (getRowEl Example.reload (str "hard") 2%nat Example.bindings).1
     = None.
Proof.
  pose proof (getRowEl_label Example.reload (str "hard") 2%nat Example.bindings)
    as [_ Hopt].
  destruct Hopt as (Hlabel & _ & Hfit & _); [by vm_compute |].
  destruct Hfit as [_ Htitle]; [by vm_compute |].
  split; [exact Hlabel | exact Htitle].
Defined.

(** C6 as stated fails on the combined budget: with a description of
    38 code units and the options "abcd", the options are shown as
    "..." and description plus options shown have 41 code units. *)
Lemma getRowEl_budget_counterexample :
  let el := (getRowEl Example.closeLeft (str "abcd") 2%nat Example.bindings).1 in
  str "abcd" <> str ""
  /\ help_description el = desc Example.closeLeft ++ str " (" ++ str "..." ++ str ")"
  /\ ~ (Z.of_nat (length (desc Example.closeLeft))
        + Z.of_nat (length (str "...")) <= 40).
Proof. by vm_compute. Qed.

(** ** The advanced toggle *)

Section ToggleFacts.

Variable scrollHeight : list (list N) -> list N -> Z.
Variable clampScrollTop : list (list N) -> list N -> Z -> Z.
Implicit Types (p : page) (t : list N) (l : list (list N)).

Lemma contains_spec t l : ClassList.contains t l = true <-> t ∈ l.
Proof. apply bool_decide_eq_true. Qed.

Lemma elem_of_add t x l : t ∈ ClassList.add x l <-> t = x \/ t ∈ l.
Proof.
  unfold ClassList.add, ClassList.contains. case_bool_decide as Hx.
  - split; [by right | by intros [-> | ?]].
  - rewrite elem_of_app, list_elem_of_singleton. tauto.
Qed.

Lemma elem_of_remove t x l : t ∈ ClassList.remove x l <-> t <> x /\ t ∈ l.
Proof.
  unfold ClassList.remove.
  rewrite list_elem_of_In, filter_In, <- list_elem_of_In.
  rewrite negb_true_iff, bool_decide_eq_false. tauto.
Qed.

Lemma get_after_set (k : list N) (v : bool) (s : gmap (list N) bool) :
  Settings.get k (Settings.set k v s) = v.
Proof. unfold Settings.get, Settings.set. by rewrite lookup_insert_eq. Qed.

Lemma toggle_settings p :
  getShowAdvancedCommands (toggleAdvancedCommands scrollHeight clampScrollTop p)
  = negb (getShowAdvancedCommands p).
Proof.
  unfold toggleAdvancedCommands. simpl.
  destruct (0 <? _); unfold getShowAdvancedCommands; simpl;
    apply get_after_set.
Qed.

Lemma toggle_caption p :
  caption (toggleAdvancedCommands scrollHeight clampScrollTop p)
  = if getShowAdvancedCommands p then str "Show advanced commands"
    else str "Hide advanced commands".
Proof.
  unfold toggleAdvancedCommands. simpl.
  destruct (0 <? _); simpl; by destruct (getShowAdvancedCommands p).
Qed.

Lemma toggle_classes p :
  dialog_classes (toggleAdvancedCommands scrollHeight clampScrollTop p)
  = if getShowAdvancedCommands p
    then ClassList.remove show_advanced (dialog_classes p)
    else ClassList.add show_advanced (dialog_classes p).
Proof.
  unfold toggleAdvancedCommands. simpl.
  destruct (0 <? _); simpl; by destruct (getShowAdvancedCommands p).
Qed.

(** [show] leaves the dialog in agreement with the persisted setting. *)
Lemma show_in_sync p :
  in_sync (showAdvancedCommands (getShowAdvancedCommands p) p).
Proof.
  unfold in_sync, getShowAdvancedCommands. simpl. split; [done |].
  destruct (Settings.get Settings.key (settings p)).
  - apply contains_spec, elem_of_add. by left.
  - apply not_true_iff_false. rewrite contains_spec, elem_of_remove. tauto.
Qed.

(** The toggle keeps that agreement. *)
Lemma toggle_in_sync p : in_sync (toggleAdvancedCommands scrollHeight clampScrollTop p).
Proof.
  unfold in_sync. rewrite toggle_settings, toggle_caption, toggle_classes.
  simpl. destruct (getShowAdvancedCommands p); simpl; (split; [done |]).
  - apply not_true_iff_false. rewrite contains_spec, elem_of_remove. tauto.
  - apply contains_spec, elem_of_add. by left.
Qed.


End ToggleFacts.



(** ** The message handler *)

Lemma is_case_spec (v : jsvalue) (s : string) :
  is_case v s = true <-> v = JsString (str s).
Proof.
  destruct v; simpl; try (split; [done | discriminate]).
  rewrite bool_decide_eq_true. split; [by intros -> | by intros [= ->]].
Qed.

(** C8.  The handler reaches [Utils.assert(false, ...)] exactly on the
    messages whose name is none of "show", "hide" and "hidden". *)
Theorem handler_assert (init_returns show_returns : bool) (v : jsvalue) :
  reaches_assert init_returns show_returns v <->
  v <> JsString (str "show") /\ v <> JsString (str "hide")
  /\ v <> JsString (str "hidden").
Proof.
  unfold reaches_assert, handler.
  destruct (is_case v "hide") eqn:Hhide;
    [| destruct (is_case v "show") eqn:Hshow;
       [| destruct (is_case v "hidden") eqn:Hhidden]].
  - apply is_case_spec in Hhide as ->. split; [| tauto].
    intros [msg Hin]. simpl in Hin. by destruct Hin as [?|[?|[?|[]]]].
  - apply is_case_spec in Hshow as ->. split; [| tauto].
    intros [msg Hin].
    destruct init_returns, show_returns; simpl in Hin;
      intuition discriminate.
  - apply is_case_spec in Hhidden as ->. split; [| tauto].
    intros [msg Hin]. simpl in Hin. by destruct Hin as [?|[?|[?|[]]]].
  - split.
    + intros _. repeat split; intros Hv%is_case_spec; congruence.
    + intros _. eexists. simpl. right; right; by left.
Qed.

(** ** The scenarios of the specification, evaluated *)

Example sort_keys_scenario :
  sort compareKeys [str "<Down>"; str "j"; str "<c-e>"; str "J"]
  = [str "J"; str "j"; str "<Down>"; str "<c-e>"].
Proof. reflexivity. Qed.

Example isAdvancedCommand_scenario :
  isAdvancedCommand Example.reload (str "nohard-ish-but-no-match") = true
  /\ isAdvancedCommand Example.scrollDown (str "hard") = false.
Proof. split; reflexivity. Qed.

Example scrollDown_row_scenario :
  (renderDialog Example.catalogue Example.bindings 0%nat).1
  = [(str "navigation",
      [RowEl (str "Scroll down") None false [str "j"; str "<Down>"]]);
     (str "misc", [])].
Proof. by vm_compute. Qed.

Example groupBy_order_scenario :
  keys (groupBy [str "b"; str "10"; str "a"; str "2"; str "b"] id)
  = [str "2"; str "10"; str "b"; str "a"].
Proof. reflexivity. Qed.

(** * Further properties of the page *)

(** ** The comparator and the truncation *)

Section ComparatorFacts.

Implicit Types a b : list N.

Lemma replace_marker_cons (x : N) a :
  replace (x :: a) [LT] [TILDE]
  = if (LT =? x)%N then TILDE :: a else x :: replace a [LT] [TILDE].
Proof.
  cbn [replace starts_with length drop app]. by destruct (LT =? x)%N.
Qed.

Lemma replace_marker_inj a b :
  TILDE ∉ a -> TILDE ∉ b ->
  replace a [LT] [TILDE] = replace b [LT] [TILDE] -> a = b.
Proof.
  revert b; induction a as [|x a IH]; intros [|y b] Ha Hb;
    rewrite ?replace_marker_cons.
  - done.
  - cbn [replace starts_with]. destruct (LT =? y)%N; discriminate.
  - cbn [replace starts_with]. destruct (LT =? x)%N; discriminate.
  - apply not_elem_of_cons in Ha as [Hx Ha]. apply not_elem_of_cons in Hb as [Hy Hb].
    destruct (N.eqb_spec LT x) as [<-|Hlx], (N.eqb_spec LT y) as [<-|Hly].
    + by intros [= ->].
    + intros [= <- _]. done.
    + intros [= -> _]. done.
    + intros [= -> Hrest]. f_equal. by apply IH.
Qed.

(** X1.  On labels without "<" the comparator is the plain order of
    strings: negative exactly when [a < b], positive exactly when
    [b < a], and 0 exactly when the labels are equal. *)
Theorem compareKeys_plain_order a b :
  LT ∉ a -> LT ∉ b ->
  (compareKeys a b = -1 <-> str_lt a b = true)
  /\ (compareKeys a b = 1 <-> str_lt b a = true)
  /\ (compareKeys a b = 0 <-> a = b).
Proof.
  intros Ha Hb. unfold compareKeys. rewrite str_lt_lit, str_tilde_lit.
  rewrite !replace_absent by done.
  destruct (str_lt a b) eqn:Hab.
  - pose proof (str_lt_asym _ _ Hab) as Hba. rewrite Hba.
    repeat split; try done.
    intros ->. by rewrite str_lt_irrefl in Hab.
  - destruct (str_lt b a) eqn:Hba.
    + repeat split; try done. intros ->. by rewrite str_lt_irrefl in Hba.
    + repeat split; try done. intros _. by apply str_lt_trichotomy.
Qed.

Lemma compareKeys_plain_order_witness :
  compareKeys (str "gg") (str "j") = -1 /\ compareKeys (str "j") (str "gg") = 1.
Proof.
  assert (Hg : LT ∉ str "gg") by compute_done.
  assert (Hj : LT ∉ str "j") by compute_done.
  split.
  - apply (proj1 (compareKeys_plain_order (str "gg") (str "j") Hg Hj)).
    reflexivity.
  - apply (proj1 (proj2 (compareKeys_plain_order (str "j") (str "gg") Hj Hg))).
    reflexivity.
Defined.

(** X2.  The comparator is consistent, as [Array.prototype.sort] asks
    of it: swapping the arguments negates the result. *)
Theorem compareKeys_swap a b : compareKeys b a = - compareKeys a b.
Proof.
  destruct (compareKeys_cases a b) as [[Hc H] | [[Hc H] | [Hc H]]];
    rewrite Hc; unfold compareKeys.
  - by rewrite (str_lt_asym _ _ H), H.
  - by rewrite H.
  - by rewrite H, str_lt_irrefl.
Qed.

(** X3.  Labels that hold no "~" are told apart: the comparator
    returns 0 on two of them only when they are the same label. *)
Theorem compareKeys_zero_eq a b :
  TILDE ∉ a -> TILDE ∉ b -> compareKeys a b = 0 -> a = b.
Proof.
  intros Ha Hb Hc.
  destruct (compareKeys_cases a b) as [[Hc' _] | [[Hc' _] | [_ H]]];
    [rewrite Hc in Hc'; discriminate .. |].
  rewrite str_lt_lit, str_tilde_lit in H. by apply replace_marker_inj.
Qed.

Lemma compareKeys_zero_eq_witness :
  compareKeys (str "<c-e>") (str "<c-e>") = 0 /\ str "<c-e>" = str "<c-e>".
Proof.
  split; [reflexivity |].
  apply (compareKeys_zero_eq (str "<c-e>") (str "<c-e>")).
  - compute_done.
  - compute_done.
  - reflexivity.
Defined.

End ComparatorFacts.

(** X4.  Truncating again to the same length changes nothing. *)
Theorem ellipsize_idempotent (s : list N) (n : Z) :
  ellipsize (ellipsize s n) n = ellipsize s n.
Proof.
  destruct (Z.le_gt_cases (Z.of_nat (length s)) n) as [Hfit|Hlong].
  - rewrite (ellipsize_short s n Hfit). by apply ellipsize_short.
  - pose proof (ellipsize_length s n Hlong) as Hlen.
    destruct (Z.le_gt_cases 3 n) as [Hn|Hn].
    + apply ellipsize_short. lia.
    + rewrite (ellipsize_long (ellipsize s n)) by lia.
      rewrite (ellipsize_long s n) by done.
      replace (Z.to_nat (n - 3)) with 0%nat by lia. by rewrite !take_0.
Qed.

Lemma ellipsize_length_le (s : list N) (n : Z) :
  Z.of_nat (length (ellipsize s n)) <= Z.max n 3.
Proof.
  destruct (Z.le_gt_cases (Z.of_nat (length s)) n) as [Hfit|Hlong].
  - rewrite ellipsize_short by done. lia.
  - rewrite ellipsize_length by done. lia.
Qed.

(** X5.  The result of [ellipsize] has at most [max(n, 3)] code units,
    and it is longer than [s] only as the bare "..." of a shorter
    [s]. *)
Theorem ellipsize_length_bound (s : list N) (n : Z) :
  Z.of_nat (length (ellipsize s n)) <= Z.max n 3
  /\ Z.of_nat (length (ellipsize s n)) <= Z.max (Z.of_nat (length s)) 3.
Proof.
  destruct (Z.le_gt_cases (Z.of_nat (length s)) n) as [Hfit|Hlong].
  - rewrite ellipsize_short by done. lia.
  - rewrite ellipsize_length by done. lia.
Qed.

(** ** The row element *)

(** X6.  The label of a row has at most 43 code units when the
    description has at most 37, and at most 6 more than the
    description otherwise. *)
Theorem getRowEl_label_length (c : command) (options : list N) (k : nat)
  (σ : store) :
  Z.of_nat (length (help_description (getRowEl c options k σ).1))
  <= Z.max 43 (Z.of_nat (length (desc c)) + 6).
Proof.
  unfold getRowEl, maxLength.
  case_bool_decide; cbn [fst help_description]; [lia |].
  rewrite !length_app.
  change (length (str " (")) with 2%nat. change (length (str ")")) with 1%nat.
  pose proof (ellipsize_length_le options
                (40 - Z.of_nat (length (desc c)))).
  lia.
Qed.

Section ElementFacts.

Variable allCommands : list command.
Implicit Types (σ : store) (t k : nat) (c : command) (rows : list row).

Local Abbreviation sort_row :=
  (fun σ (r : row) => array_sort compareKeys (row_keys r) σ).

(** Two stores hold the same keys in every array, up to their order. *)
Local Abbreviation same_sorted σ1 σ2 :=
  (forall l : nat, sort compareKeys <$> arrays σ1 !! l
                   = sort compareKeys <$> arrays σ2 !! l).

Lemma get_array_array_sort k σ :
  get_array (array_sort compareKeys k σ) k = sort compareKeys (get_array σ k).
Proof.
  unfold get_array, array_sort. simpl. rewrite lookup_alter, decide_True by done.
  by destruct (arrays σ !! k).
Qed.

Lemma getRowEl_same_sorted c (options : list N) k σ1 σ2 :
  same_sorted σ1 σ2 -> (getRowEl c options k σ1).1 = (getRowEl c options k σ2).1.
Proof.
  intros Hsame. unfold getRowEl. rewrite !get_array_array_sort.
  assert (sort compareKeys (get_array σ1 k) = sort compareKeys (get_array σ2 k))
    as ->.
  { unfold get_array. specialize (Hsame k).
    destruct (arrays σ1 !! k), (arrays σ2 !! k); simpl in *; congruence. }
  by case_bool_decide.
Qed.

Lemma array_sort_same_sorted k σ σ0 :
  same_sorted σ σ0 -> same_sorted (array_sort compareKeys k σ) σ0.
Proof.
  intros Hsame l. unfold array_sort. simpl. rewrite lookup_alter.
  case_decide; [subst l | done]. rewrite <- Hsame.
  destruct (arrays σ !! k) as [ks|]; simpl; [| done].
  f_equal. apply sort_idemp, key_le_total.
Qed.

Lemma sort_rows_same_sorted rows σ σ0 :
  same_sorted σ σ0 -> same_sorted (foldl sort_row σ rows) σ0.
Proof.
  revert σ; induction rows as [|r rows IH]; intros σ Hsame; [done |].
  simpl. by apply IH, array_sort_same_sorted.
Qed.

Lemma renderRows_elements rows σ σ0 :
  same_sorted σ σ0 -> (renderRows rows σ).1 = List.map (row_element σ0) rows.
Proof.
  revert σ; induction rows as [|[[c o] k] rows IH]; intros σ Hsame; [done |].
  simpl. pose proof (getRowEl_store c o k σ) as Hst.
  pose proof (getRowEl_same_sorted c o k σ σ0 Hsame) as Hel.
  destruct (getRowEl c o k σ) as [el σ1]. simpl in Hst, Hel. subst σ1.
  specialize (IH (array_sort compareKeys k σ)
                (array_sort_same_sorted k σ σ0 Hsame)).
  destruct (renderRows rows (array_sort compareKeys k σ)) as [els σ2].
  simpl in *. by rewrite Hel, IH.
Qed.

Lemma renderGroups_elements (rowsByGroup : list (list N * list row)) σ σ0 :
  same_sorted σ σ0 ->
  (renderGroups rowsByGroup σ).1
  = List.map (fun gr => (gr.1, List.map (row_element σ0) gr.2)) rowsByGroup.
Proof.
  revert σ; induction rowsByGroup as [|[g rows] rest IH]; intros σ Hsame;
    [done |].
  simpl. pose proof (renderRows_store rows σ) as Hst.
  pose proof (renderRows_elements rows σ σ0 Hsame) as Hel.
  destruct (renderRows rows σ) as [els σ1]. simpl in Hst, Hel. subst σ1.
  specialize (IH (foldl sort_row σ rows)
                (sort_rows_same_sorted rows σ σ0 Hsame)).
  destruct (renderGroups rest (foldl sort_row σ rows)) as [out σ2].
  simpl in *. by rewrite Hel, IH.
Qed.

Lemma rows_of_objects σ1 σ2 t (commands : list command) :
  objects σ1 = objects σ2 -> rows_of σ1 t commands = rows_of σ2 t commands.
Proof.
  intros Hobj. unfold rows_of. apply flat_map_ext. intros c.
  unfold variations, get_object. by rewrite Hobj.
Qed.

Lemma getRowsForDialog_objects σ1 σ2 t :
  objects σ1 = objects σ2 ->
  getRowsForDialog allCommands σ1 t = getRowsForDialog allCommands σ2 t.
Proof.
  intros Hobj. unfold getRowsForDialog.
  generalize (@nil (list N * list row)).
  induction (groupBy allCommands group_key) as [|[g cmds] bg IH]; intros acc;
    [done |].
  simpl. by rewrite (rows_of_objects σ1 σ2 t cmds Hobj), IH.
Qed.

Lemma renderDialog_same_sorted σ t :
  same_sorted (renderDialog allCommands σ t).2 σ.
Proof.
  unfold renderDialog. rewrite renderGroups_store.
  by apply sort_rows_same_sorted.
Qed.

(** X7.  The key nodes of a row are the keys of its array, each once
    for each time it is bound, in the comparator's order; the array
    itself is left in that order. *)
Theorem getRowEl_keys c (options : list N) k σ :
  key_bindings (getRowEl c options k σ).1 ≡ₚ get_array σ k
  /\ Sorted key_le (key_bindings (getRowEl c options k σ).1)
  /\ get_array (getRowEl c options k σ).2 k
     = key_bindings (getRowEl c options k σ).1.
Proof.
  rewrite getRowEl_store.
  assert (Hk : key_bindings (getRowEl c options k σ).1
               = sort compareKeys (get_array σ k)).
  { unfold getRowEl. rewrite get_array_array_sort. by case_bool_decide. }
  rewrite Hk. split; [apply sort_perm |].
  split; [apply (sort_Sorted compareKeys key_le_total) |].
  apply get_array_array_sort.
Qed.

(** X8.  Each row is rendered as if it were alone: the elements of the
    dialog are those of the rows of [getRowsForDialog], group by group
    and row by row, each computed on the store as it was before
    rendering, also when rows share a key list. *)
Theorem renderDialog_elements σ t :
  (renderDialog allCommands σ t).1
  = List.map (fun gr => (gr.1, List.map (row_element σ) gr.2))
      (getRowsForDialog allCommands σ t).
Proof. unfold renderDialog. by apply renderGroups_elements. Qed.

(** X9.  Rendering again from the store that a rendering leaves gives
    the same elements and changes the store no more. *)
Theorem renderDialog_idempotent σ t :
  renderDialog allCommands (renderDialog allCommands σ t).2 t
  = renderDialog allCommands σ t.
Proof.
  pose proof (renderDialog_same_sorted σ t) as Hsame.
  assert (Hobj : objects (renderDialog allCommands σ t).2 = objects σ).
  { unfold renderDialog. rewrite renderGroups_store. apply sort_rows_objects. }
  apply injective_projections.
  - unfold renderDialog at 1.
    rewrite (renderGroups_elements _ _ σ Hsame).
    rewrite (getRowsForDialog_objects _ σ t Hobj).
    unfold renderDialog. symmetry. by apply renderGroups_elements.
  - unfold renderDialog at 1.
    rewrite renderGroups_store, (getRowsForDialog_objects _ σ t Hobj).
    set (σ' := (renderDialog allCommands σ t).2) in *.
    set (rows := concat (List.map snd (getRowsForDialog allCommands σ t))).
    assert (Harr : arrays (foldl sort_row σ' rows) = arrays σ').
    { apply map_eq. intros l. rewrite sort_rows_arrays.
      case_decide as Hl; [| done].
      subst σ'. unfold renderDialog. rewrite renderGroups_store.
      fold rows. rewrite sort_rows_arrays, decide_True by done.
      destruct (arrays σ !! l) as [ks|]; simpl; [| done].
      f_equal. apply sort_idemp, key_le_total. }
    pose proof (sort_rows_objects rows σ') as Hobj'.
    destruct (foldl sort_row σ' rows) as [o1 a1], σ' as [o2 a2].
    simpl in *. by subst.
Qed.

(** X10.  Only the key lists of bound variations of catalogued
    commands are touched: an array that is the key list of no
    variation of a command of the catalogue is the same after
    rendering. *)
Theorem renderDialog_other_arrays σ t (l : nat) :
  (forall c (options : list N),
     c ∈ allCommands -> (options, l) ∉ variations σ t c) ->
  arrays (renderDialog allCommands σ t).2 !! l = arrays σ !! l.
Proof.
  intros Hfree. unfold renderDialog. rewrite renderGroups_store.
  rewrite sort_rows_arrays. rewrite decide_False; [done |].
  intros Hl. apply (rendered_keys_spec allCommands σ t l) in Hl
    as (c & o & Hc & _ & Hin).
  by apply (Hfree c o).
Qed.

(** X11.  Every binding of a catalogued command is shown: a variation
    of a command of the catalogue has its row in the list of the
    command's group. *)
Theorem bound_command_has_row σ t c (options : list N) k :
  c ∈ allCommands ->
  group_key c <> str "__proto__" ->
  (options, k) ∈ variations σ t c ->
  exists rows : list row,
    obj_get (group_key c) (getRowsForDialog allCommands σ t) = Some rows
    /\ (c, options, k) ∈ rows.
Proof.
  intros Hc Hproto Hin.
  assert (Hm : c ∈ members group_key (group_key c) allCommands).
  { apply list_elem_of_In, filter_In. split; [by apply list_elem_of_In |].
    by apply bool_decide_eq_true. }
  exists (rows_of σ t (members group_key (group_key c) allCommands)). split.
  - rewrite obj_get_getRowsForDialog, decide_False by done.
    destruct (members group_key (group_key c) allCommands); [| done].
    by apply elem_of_nil in Hm.
  - apply rows_of_elem. by split.
Qed.

(** X12.  The rows of a group come command by command in the order of
    the catalogue, the variations of a command in the order of its
    options map. *)
Theorem getRowsForDialog_order σ t (g : list N) (rows : list row) :
  obj_get g (getRowsForDialog allCommands σ t) = Some rows ->
  rows
  = flat_map
      (fun c => List.map (fun ok => (c, ok.1, ok.2)) (variations σ t c))
      (List.filter (fun c => bool_decide (group_key c = g)) allCommands).
Proof.
  intros Hg. apply obj_get_elem, getRowsForDialog_rows in Hg. subst rows.
  unfold rows_of, members. apply flat_map_ext. intros c.
  apply map_ext. by intros [o k].
Qed.

End ElementFacts.

Lemma renderDialog_other_arrays_witness :
  arrays (renderDialog Example.catalogue Sample.with_spare 0%nat).2 !! 3%nat
  = arrays Sample.with_spare !! 3%nat.
Proof.
  apply renderDialog_other_arrays. intros c o Hc Hin.
  apply list_elem_of_In in Hc. apply list_elem_of_In in Hin.
  simpl in Hc. destruct Hc as [<- | [<- | [<- | []]]];
    vm_compute in Hin; intuition congruence.
Defined.

Lemma bound_command_has_row_witness :
  exists rows : list row,
    obj_get (group_key Example.scrollDown)
      (getRowsForDialog Example.catalogue Example.bindings 0%nat) = Some rows
    /\ (Example.scrollDown, str "", 2%nat) ∈ rows.
Proof.
  apply (bound_command_has_row Example.catalogue Example.bindings 0%nat
           Example.scrollDown (str "") 2%nat).
  - apply list_elem_of_here.
  - by vm_compute.
  - apply list_elem_of_here.
Defined.

Lemma getRowsForDialog_order_witness :
  [(Example.scrollDown, str "", 2%nat)]
  = flat_map
      (fun c => List.map (fun ok => (c, ok.1, ok.2))
                  (variations Example.bindings 0%nat c))
      (List.filter (fun c => bool_decide (group_key c = str "navigation"))
         Example.catalogue).
Proof.
  apply (getRowsForDialog_order Example.catalogue Example.bindings 0%nat
           (str "navigation")).
  reflexivity.
Defined.

(** ** The toggle, from any state *)

Section ToggleFrame.

Variable scrollHeight : list (list N) -> list N -> Z.
Variable clampScrollTop : list (list N) -> list N -> Z -> Z.
Implicit Types (p : page) (t : list N).

(** X13.  Whatever the dialog showed before, one toggle flips the
    persisted value and leaves the caption and the "show-advanced"
    class in agreement with it. *)
Theorem toggle_flips_and_syncs p :
  getShowAdvancedCommands (toggleAdvancedCommands scrollHeight clampScrollTop p)
  = negb (getShowAdvancedCommands p)
  /\ in_sync (toggleAdvancedCommands scrollHeight clampScrollTop p).
Proof. split; [apply toggle_settings | apply toggle_in_sync]. Qed.

(** X14.  The toggle touches no other setting and no other class:
    every setting but [helpDialog_showAdvancedCommands] and every
    class of the dialog but "show-advanced" is as before. *)
Theorem toggle_frame p :
  (forall k : list N, k <> Settings.key ->
     settings (toggleAdvancedCommands scrollHeight clampScrollTop p) !! k
     = settings p !! k)
  /\ (forall t, t <> show_advanced ->
        t ∈ dialog_classes (toggleAdvancedCommands scrollHeight clampScrollTop p)
        <-> t ∈ dialog_classes p).
Proof.
  split.
  - intros k Hk. unfold toggleAdvancedCommands, Settings.set. simpl.
    destruct (0 <? _); simpl; by rewrite lookup_insert_ne.
  - intros t Ht. rewrite toggle_classes.
    destruct (getShowAdvancedCommands p).
    + rewrite (elem_of_remove scrollHeight clampScrollTop). tauto.
    + rewrite (elem_of_add scrollHeight clampScrollTop). tauto.
Qed.

End ToggleFrame.

(** ** The branches of the message handler *)

(** X15.  Every message is handled after the settings and the browser
    information are loaded, and each recognised name runs its own
    branch only: the hide message is posted exactly for "hide", the
    HUD abandoned exactly for "hidden", [init] called exactly for
    "show"; [show] is called exactly for "show" when [init] returns,
    and the mode indicator is reinstated exactly for "show" when both
    [init] and [show] return. *)
Theorem handler_branches (init_returns show_returns : bool) (v : jsvalue) :
  let calls := handler init_returns show_returns v in
  (exists rest, calls = AwaitSettingsLoaded :: AwaitBrowserInfo :: rest)
  /\ (In PostHide calls <-> v = JsString (str "hide"))
  /\ (In DialogInit calls <-> v = JsString (str "show"))
  /\ (In DialogShow calls <-> v = JsString (str "show") /\ init_returns = true)
  /\ (In SetIndicator calls <->
      v = JsString (str "show") /\ init_returns = true /\ show_returns = true)
  /\ (In HudAbandon calls <-> v = JsString (str "hidden")).
Proof.
  intros calls. subst calls. split; [by eexists |].
  unfold handler.
  destruct (is_case v "hide") eqn:Hhide;
    [| destruct (is_case v "show") eqn:Hshow;
       [| destruct (is_case v "hidden") eqn:Hhidden]].
  - apply is_case_spec in Hhide as ->. simpl.
    intuition discriminate.
  - apply is_case_spec in Hshow as ->.
    destruct init_returns, show_returns; simpl; intuition discriminate.
  - apply is_case_spec in Hhidden as ->. simpl.
    intuition discriminate.
  - assert (v <> JsString (str "hide"))
      by (intros Hv%is_case_spec; congruence).
    assert (v <> JsString (str "show"))
      by (intros Hv%is_case_spec; congruence).
    assert (v <> JsString (str "hidden"))
      by (intros Hv%is_case_spec; congruence).
    simpl. intuition discriminate.
Qed.

(** ** [HelpDialogPage.init] *)

Section InitFacts.

Implicit Types (doc : document) (s : controller).

(** What a complete [init] registers, in order. *)
Local Abbreviation five :=
  [Listener CloseButton (str "click") HideDialog;
   Listener OptionsLink (str "click") OpenOptionsPage;
   Listener OptionsLink (str "auxclick") OpenOptionsPage;
   Listener ToggleLink (str "click") ToggleAdvanced;
   Listener DocumentElement (str "click") HideIfOutside].

Lemma init_initialised doc s :
  is_Some (dialogElement s) -> HelpDialogPage.init doc s = Returned s.
Proof. unfold HelpDialogPage.init. by intros [d ->]. Qed.

Lemma init_complete doc s (d : nat) :
  dialogElement s = None -> dialog doc = Some d ->
  close_button doc = true -> options_page doc = true ->
  toggle_link doc = true ->
  HelpDialogPage.init doc s
  = Returned (Controller (Some d) (listeners s ++ five)).
Proof.
  intros Hs Hd Hc Ho Ht. unfold HelpDialogPage.init, addEventListener.
  rewrite Hs, Hd, Hc, Ho, Ht. simpl. by rewrite <- !app_assoc.
Qed.

(** X16.  On a page that has the dialog, the close button, the options
    link and the toggle link, any number of calls of [init], one or
    more, registers the five listeners once. *)
Theorem init_registers_once doc s (d : nat) (n : nat) :
  dialogElement s = None -> dialog doc = Some d ->
  close_button doc = true -> options_page doc = true ->
  toggle_link doc = true ->
  Nat.iter (S n) (fun s => state_of (HelpDialogPage.init doc s)) s
  = Controller (Some d) (listeners s ++ five).
Proof.
  intros Hs Hd Hc Ho Ht. induction n as [|n IH].
  - simpl. by rewrite (init_complete doc s d).
  - change (Nat.iter (S (S n)) ?f s) with (f (Nat.iter (S n) f s)).
    rewrite IH. by rewrite init_initialised.
Qed.

Lemma init_registers_once_witness :
  Nat.iter 3 (fun s => state_of (HelpDialogPage.init Sample.complete s))
    Sample.fresh
  = Controller (Some 7%nat) (listeners Sample.fresh ++ five).
Proof.
  apply (init_registers_once Sample.complete Sample.fresh 7%nat 2%nat);
    reflexivity.
Defined.

Lemma init_sets_dialog doc s (d : nat) :
  dialogElement s = None -> dialog doc = Some d ->
  dialogElement (state_of (HelpDialogPage.init doc s)) = Some d.
Proof.
  intros Hs Hd. unfold HelpDialogPage.init. rewrite Hs, Hd.
  by destruct (close_button doc), (options_page doc), (toggle_link doc).
Qed.

Lemma init_threw_listeners doc s (d : nat) :
  dialogElement s = None -> dialog doc = Some d ->
  returned (HelpDialogPage.init doc s) = false ->
  (length (listeners (state_of (HelpDialogPage.init doc s)))
   < length (listeners s) + 5)%nat.
Proof.
  intros Hs Hd. unfold HelpDialogPage.init, addEventListener. rewrite Hs, Hd.
  destruct (close_button doc), (options_page doc), (toggle_link doc); simpl;
    intros Hret; try discriminate; rewrite ?length_app; simpl; lia.
Qed.

(** X17.  [init] is not retried: once a call has found the dialog,
    whether it returned or threw on a missing element, every later
    call returns at once and registers nothing, whatever the page
    holds by then.  After a throw fewer than five listeners stay
    registered. *)
Theorem init_not_retried doc doc' s (d : nat) :
  dialogElement s = None -> dialog doc = Some d ->
  let s1 := state_of (HelpDialogPage.init doc s) in
  HelpDialogPage.init doc' s1 = Returned s1
  /\ (returned (HelpDialogPage.init doc s) = false ->
      (length (listeners s1) < length (listeners s) + 5)%nat).
Proof.
  intros Hs Hd s1. subst s1. split.
  - apply init_initialised. rewrite (init_sets_dialog doc s d) by done.
    by eexists.
  - by apply (init_threw_listeners doc s d).
Qed.

Lemma init_not_retried_witness :
  let s1 := state_of (HelpDialogPage.init Sample.no_options_link Sample.fresh) in
  HelpDialogPage.init Sample.complete s1 = Returned s1
  /\ length (listeners s1) = 1%nat.
Proof.
  split; [| reflexivity].
  apply (init_not_retried Sample.no_options_link Sample.complete Sample.fresh
           7%nat); reflexivity.
Defined.

End InitFacts.

(** ** [HelpDialogPage.show] *)

Section ShowFacts.

Variable allCommands : list command.
Variable container_of : list N -> option nat.
Variable parts : surroundings.
Variable s : controller.
Implicit Types (σ : store) (t : nat) (dom : gmap nat (list rowEl))
  (rowsByGroup : list (list N * list row)).

Local Abbreviation sort_row :=
  (fun σ (r : row) => array_sort compareKeys (row_keys r) σ).

Local Abbreviation same_sorted σ1 σ2 :=
  (forall l : nat, sort compareKeys <$> arrays σ1 !! l
                   = sort compareKeys <$> arrays σ2 !! l).

Local Abbreviation has_container :=
  (fun g : list N => is_Some (container_of g)).

Local Abbreviation no_rows := (fun gr : list N * list row => gr.2 = []).

Lemma appendRows_renderRows (e : nat) (rows : list row) σ dom :
  row_templates parts = true ->
  HelpDialogPage.appendRows parts e rows σ dom
  = Returned ((renderRows rows σ).2,
              alter (fun children => children ++ (renderRows rows σ).1) e dom).
Proof.
  intros Htpl. revert σ dom.
  induction rows as [|[[c o] k] rows IH]; intros σ dom.
  - simpl. do 2 f_equal. symmetry. apply alter_id. intros x _. apply app_nil_r.
  - simpl. rewrite Htpl. simpl.
    destruct (getRowEl c o k σ) as [el σ1]. rewrite IH.
    destruct (renderRows rows σ1) as [els σ2]. simpl. do 2 f_equal.
    rewrite alter_alter_eq. apply alter_ext. intros x _. simpl.
    by rewrite <- app_assoc.
Qed.

Lemma fillGroups_returned (d : nat) rowsByGroup σ dom :
  dialogElement s = Some d ->
  returned (HelpDialogPage.fillGroups container_of parts s rowsByGroup σ dom)
  = true
  <-> Forall has_container (keys rowsByGroup)
      /\ (row_templates parts = true \/ Forall no_rows rowsByGroup).
Proof.
  intros Hd. unfold keys. revert σ dom.
  induction rowsByGroup as [|[g rows] rest IH]; intros σ dom; simpl.
  - split; [intros _ | done]. split; [constructor | right; constructor].
  - rewrite Hd, !Forall_cons. destruct (container_of g) as [e|] eqn:He.
    + destruct (row_templates parts) eqn:Htpl.
      * rewrite appendRows_renderRows by done. rewrite IH.
        split; [intros [? _] | intros [[_ ?] _]]; (split; [| by left]);
          try split; by eauto.
      * destruct rows as [|[[c o] k] rows]; simpl; rewrite ?Htpl; simpl.
        -- rewrite IH. split.
           ++ intros [? [? | ?]]; [done |]. split; [by eauto |]. by right.
           ++ intros [[_ ?] [? | [_ ?]]]; [done |]. split; [done | by right].
        -- split; [done |]. intros [_ [? | [? _]]]; done.
    + simpl. split; [done | by intros [[[? ?] _] _]].
Qed.

Lemma fillGroups_filled (d : nat) rowsByGroup σ σ0 dom :
  dialogElement s = Some d ->
  row_templates parts = true ->
  same_sorted σ σ0 ->
  Forall has_container (keys rowsByGroup) ->
  exists dom',
    HelpDialogPage.fillGroups container_of parts s rowsByGroup σ dom
    = Returned ((renderGroups rowsByGroup σ).2, dom')
    /\ (forall e : nat,
          (forall g, g ∈ keys rowsByGroup -> container_of g <> Some e) ->
          dom' !! e = dom !! e)
    /\ (NoDup (keys rowsByGroup) ->
        (forall g1 g2 (e : nat),
           g1 ∈ keys rowsByGroup -> g2 ∈ keys rowsByGroup ->
           container_of g1 = Some e -> container_of g2 = Some e -> g1 = g2) ->
        forall g (rows : list row) (e : nat),
          (g, rows) ∈ rowsByGroup -> container_of g = Some e ->
          dom' !! e = Some (List.map (row_element σ0) rows)).
Proof.
  intros Hd Htpl. unfold keys. revert σ dom.
  induction rowsByGroup as [|[g rows] rest IH]; intros σ dom Hsame Hall.
  - exists dom. simpl. split; [done |]. split; [done |].
    intros _ _ g rows e Hin. by apply elem_of_nil in Hin.
  - simpl in Hall. apply Forall_cons in Hall as [[e He] Hall].
    simpl. rewrite Hd, He, appendRows_renderRows by done.
    pose proof (renderRows_store rows σ) as Hst.
    pose proof (renderRows_elements rows σ σ0 Hsame) as Hel.
    destruct (renderRows rows σ) as [els σ1]. simpl in Hst, Hel. subst σ1 els.
    cbn [fst snd]. set (dom1 := alter _ e (<[e:=[]]> dom)).
    assert (Hdom1 : dom1 !! e = Some (List.map (row_element σ0) rows)).
    { subst dom1. by rewrite lookup_alter, decide_True, lookup_insert_eq. }
    destruct (IH (foldl sort_row σ rows) dom1
                (sort_rows_same_sorted rows σ σ0 Hsame) Hall)
      as (dom' & Hfill & Hframe & Hcont).
    exists dom'. rewrite Hfill.
    destruct (renderGroups rest (foldl sort_row σ rows)) as [out σ2]. simpl.
    split; [done |]. split.
    + intros e' Hfree. rewrite Hframe.
      * subst dom1. rewrite lookup_alter, decide_False.
        -- rewrite lookup_insert_ne; [done |].
           intros ->. apply (Hfree g); [apply list_elem_of_here | done].
        -- intros ->. apply (Hfree g); [apply list_elem_of_here | done].
      * intros g' Hg'. by apply Hfree, list_elem_of_further.
    + intros [Hg Hnd]%NoDup_cons Hinj g' rows' e' Hin He'.
      apply elem_of_cons in Hin as [[= -> ->] | Hin].
      * assert (e' = e) as -> by congruence.
        rewrite Hframe; [done |]. intros g'' Hg'' He''. apply Hg.
        assert (g'' = g) as <-; [| done].
        apply (Hinj g'' g e); [by apply list_elem_of_further
                              | apply list_elem_of_here | done | done].
      * apply (Hcont Hnd) with (g := g'); [| done | done].
        intros g1 g2 e0 H1 H2. apply Hinj; by apply list_elem_of_further.
Qed.

Lemma show_threw_page σ (table : option nat) dom (p : page) :
  let r := HelpDialogPage.show allCommands container_of parts s σ table dom p in
  returned r = false ->
  dialog_classes (state_of r).2 = dialog_classes p
  /\ settings (state_of r).2 = settings p.
Proof.
  unfold HelpDialogPage.show.
  destruct (version_element parts); simpl; [| done].
  destruct (HelpDialogPage.readRows allCommands σ table) as [rbg|]; [| done].
  destruct (HelpDialogPage.fillGroups container_of parts s rbg σ dom)
    as [[σ' dom']|[σ' dom']]; [| done].
  destruct (toggle_anchor parts); simpl; [| done].
  by destruct (dialogElement s).
Qed.

(** X18.  [show] returns normally exactly when the page has the
    version element and the toggle link, the dialog was found by
    [init], the storage read yielded a table (or the catalogue is
    empty), every group of the rows has a container in the dialog,
    and the row templates exist (or there is no row to render);
    otherwise it throws.  When it throws, the "show-advanced" class
    and the settings are as before. *)
Theorem show_returns_iff σ (table : option nat) dom (p : page) :
  (returned
     (HelpDialogPage.show allCommands container_of parts s σ table dom p)
   = true
   <-> version_element parts = true
       /\ (is_Some table \/ allCommands = [])
       /\ is_Some (dialogElement s)
       /\ toggle_anchor parts = true
       /\ Forall (fun g => is_Some (container_of g))
            (keys (HelpDialogPage.rowsOf allCommands σ table))
       /\ (row_templates parts = true
           \/ Forall (fun gr => gr.2 = [])
                (HelpDialogPage.rowsOf allCommands σ table)))
  /\ (returned
        (HelpDialogPage.show allCommands container_of parts s σ table dom p)
      = false ->
      dialog_classes
        (state_of
           (HelpDialogPage.show allCommands container_of parts s σ table dom p)).2
      = dialog_classes p
      /\ settings
           (state_of
              (HelpDialogPage.show allCommands container_of parts s σ table
                 dom p)).2
         = settings p).
Proof.
  split; [| apply show_threw_page].
  unfold HelpDialogPage.show.
  destruct (version_element parts); simpl; [| by split; [| intros [? _]]].
  assert (Hread : HelpDialogPage.readRows allCommands σ table
                  = if bool_decide (is_Some table \/ allCommands = [])
                    then Some (HelpDialogPage.rowsOf allCommands σ table)
                    else None).
  { unfold HelpDialogPage.readRows.
    destruct table as [t|], allCommands as [|c cs]; case_bool_decide as H;
      try done.
    - destruct H; by eauto.
    - destruct H; by eauto.
    - destruct H; by eauto.
    - destruct H as [[? ?] | ?]; done. }
  rewrite Hread. clear Hread. case_bool_decide as Htable.
  2:{ split; [done | tauto]. }
  set (rbg := HelpDialogPage.rowsOf allCommands σ table).
  destruct (dialogElement s) as [d|] eqn:Hd.
  - pose proof (fillGroups_returned d rbg σ dom Hd) as Hfill.
    destruct (HelpDialogPage.fillGroups container_of parts s rbg σ dom)
      as [[σ' dom']|[σ' dom']]; simpl in Hfill.
    + destruct (proj1 Hfill eq_refl) as [Hall Hrows].
      destruct (toggle_anchor parts); simpl.
      * split; [intros _ | done]. repeat split; by eauto.
      * split; [done | intros (_ & _ & _ & ? & _); done].
    + split; [done |]. intros (_ & _ & _ & _ & Hall & Hrows).
      by apply Hfill.
  - destruct (HelpDialogPage.fillGroups container_of parts s rbg σ dom)
      as [[σ' dom']|[σ' dom']]; [destruct (toggle_anchor parts) |]; simpl;
      (split; [done | by intros (_ & _ & [? ?] & _)]).
Qed.

(** X19.  On a page that has all that [show] looks up, with the dialog
    found by [init], a table in storage and a container of its own
    for every group, [show] leaves in each container exactly the
    elements of the group's rows, whatever the container held before;
    the store is the one [renderDialog] leaves, the persisted
    visibility is applied, and the elements that are no container of
    a group keep their content. *)
Theorem show_fills_containers (d : nat) σ t dom (p : page) :
  version_element parts = true ->
  row_templates parts = true ->
  toggle_anchor parts = true ->
  dialogElement s = Some d ->
  Forall (fun g => is_Some (container_of g))
    (keys (getRowsForDialog allCommands σ t)) ->
  (forall g1 g2 (e : nat),
     g1 ∈ keys (getRowsForDialog allCommands σ t) ->
     g2 ∈ keys (getRowsForDialog allCommands σ t) ->
     container_of g1 = Some e -> container_of g2 = Some e -> g1 = g2) ->
  exists dom',
    HelpDialogPage.show allCommands container_of parts s σ (Some t) dom p
    = Returned ((renderDialog allCommands σ t).2, dom',
                showAdvancedCommands (getShowAdvancedCommands p) p)
    /\ (forall g (rows : list row) (e : nat),
          (g, rows) ∈ getRowsForDialog allCommands σ t ->
          container_of g = Some e ->
          dom' !! e = Some (List.map (row_element σ) rows))
    /\ (forall e : nat,
          (forall g, g ∈ keys (getRowsForDialog allCommands σ t) ->
                     container_of g <> Some e) ->
          dom' !! e = dom !! e).
Proof.
  intros Hver Htpl Htoggle Hd Hall Hinj.
  destruct (fillGroups_filled d (getRowsForDialog allCommands σ t) σ σ dom
              Hd Htpl (fun _ => eq_refl) Hall)
    as (dom' & Hfill & Hframe & Hcont).
  exists dom'. unfold HelpDialogPage.show, HelpDialogPage.readRows.
  rewrite Hver, Htoggle, Hd. simpl. rewrite Hfill.
  split; [done |]. split; [| done].
  apply Hcont; [apply getRowsForDialog_NoDup | done].
Qed.

End ShowFacts.

Lemma show_fills_containers_witness :
  exists dom',
    HelpDialogPage.show Example.catalogue Sample.container_of Sample.all_parts
      Sample.initialised Example.bindings (Some 0%nat) Sample.shown_before
      Example.fresh_page
    = Returned
        ((renderDialog Example.catalogue Example.bindings 0%nat).2, dom',
         showAdvancedCommands (getShowAdvancedCommands Example.fresh_page)
           Example.fresh_page)
    /\ dom' !! 11%nat = Some []
    /\ dom' !! 12%nat = Some [Sample.stale_row].
Proof.
  assert (Hkeys : keys (getRowsForDialog Example.catalogue Example.bindings 0%nat)
                  = [str "navigation"; str "misc"]) by reflexivity.
  destruct (show_fills_containers Example.catalogue Sample.container_of
              Sample.all_parts Sample.initialised 7%nat
              Example.bindings 0%nat Sample.shown_before Example.fresh_page)
    as (dom' & Hshow & Hcont & Hframe); try reflexivity.
  - rewrite Hkeys. repeat constructor; by eexists.
  - rewrite Hkeys. intros g1 g2 e H1 H2.
    apply list_elem_of_In in H1, H2. simpl in H1, H2.
    destruct H1 as [<- | [<- | []]], H2 as [<- | [<- | []]];
      vm_compute; congruence.
  - exists dom'. split; [exact Hshow |]. split.
    + apply (Hcont (str "misc") []); [| reflexivity].
      apply list_elem_of_In. vm_compute. tauto.
    + rewrite Hframe; [reflexivity |]. rewrite Hkeys. intros g Hg.
      apply list_elem_of_In in Hg. simpl in Hg.
      destruct Hg as [<- | [<- | []]]; by vm_compute.
Defined.
